(** * Streaming group-by-and-transform pipeline (src/index.ts)

    A shallow embedding of the two async generators [groupBy] and [map] of
    src/index.ts, of the pipeline that [main] builds from them, and the
    properties of that pipeline.

    An async generator is embedded as a resumable state machine: a state
    type, the current state, and the two operations of the iteration
    protocol that the program uses, [next] and [return].  A generator body
    is translated suspension point by suspension point: every [yield] of the
    source is a control point of the machine, and the local variables that
    are live across the [yield] are fields of its state. *)

From Stdlib Require Import ZArith Ascii String List Bool Lia.
From stdpp Require Import base option list strings gmap.

(** ** JavaScript values *)

(** The primitive values a row field or a grouping key can hold, and object
    references.  Numbers are the integers (ids, quantities) and NaN, the one
    number that is not strictly equal to itself. *)
Inductive JsValue : Type :=
| JsUndefined
| JsNull
| JsBoolean (b : bool)
| JsNumber (n : Z)
| JsNaN
| JsString (s : string)
| JsObject (ref : positive).

(** [a === b]. *)
Definition strict_eq (a b : JsValue) : bool :=
  match a, b with
  | JsUndefined, JsUndefined => true
  | JsNull, JsNull => true
  | JsBoolean x, JsBoolean y => Bool.eqb x y
  | JsNumber x, JsNumber y => Z.eqb x y
  | JsString x, JsString y => String.eqb x y
  | JsObject x, JsObject y => Pos.eqb x y
  | _, _ => false
  end.

(** [a !== b]. *)
Definition strict_neq (a b : JsValue) : bool := negb (strict_eq a b).

(** What a [throw] carries, or what a rejected promise is rejected with. *)
Inductive JsError : Type :=
| TypeError (message : string)
| Raised (v : JsValue).

(** The completion of a call: a value, or an exception. *)
Inductive Completion (A : Type) : Type :=
| Normal (a : A)
| Abrupt (e : JsError).
Arguments Normal {A} a.
Arguments Abrupt {A} e.

(** A function that never throws. *)
Definition total {A B : Type} (f : A -> B) : A -> Completion B :=
  fun a => Normal (f a).

(** ** The iteration protocol *)

(** The settlement of the promise that [next()] returns:
    [{ value, done: false }], [{ done: true }], or a rejection. *)
Inductive IteratorResult (A : Type) : Type :=
| IterValue (value : A)
| IterDone
| IterThrow (e : JsError).
Arguments IterValue {A} value.
Arguments IterDone {A}.
Arguments IterThrow {A} e.

(** An async generator object. *)
Record AsyncGenerator (A : Type) : Type := {
  St : Type;
  state : St;
  next : St -> IteratorResult A * St;
  return_ : St -> St
}.
Arguments St {A} _.
Arguments state {A} _.
Arguments next {A} _ _.
Arguments return_ {A} _ _.

(** ** The source: a [Readable] in object mode

    The rows that the stream still has to deliver, the error (if any) that
    it fails with once they are delivered, and whether the stream has been
    destroyed.  Leaving a [for await] loop early destroys the stream. *)
Record Readable (T : Type) : Type := {
  pending : list T;
  failure : option JsError;
  destroyed : bool
}.
Arguments pending {T} _.
Arguments failure {T} _.
Arguments destroyed {T} _.

Definition Readable_destroy {T} (r : Readable T) : Readable T :=
  {| pending := pending r; failure := failure r; destroyed := true |}.

Definition Readable_next {T} (r : Readable T) : IteratorResult T * Readable T :=
  if destroyed r then (IterDone, r)
  else match pending r with
       | row :: rest =>
           (IterValue row,
            {| pending := rest; failure := failure r; destroyed := false |})
       | [] =>
           match failure r with
           | Some e => (IterThrow e, Readable_destroy r)
           | None => (IterDone, Readable_destroy r)
           end
       end.

(** A stream that delivers [rows] and ends. *)
Definition Readable_from {T} (rows : list T) : Readable T :=
  {| pending := rows; failure := None; destroyed := false |}.

(** ** [groupBy] (index.ts, lines 23-39) *)

Section GroupBy.
Context {T : Type}.

(** Where the generator is suspended: not started, at the [yield] of
    line 30 (inside the loop, [row] live), at the [yield] of line 37, or
    completed. *)
Inductive GroupByPc : Type :=
| GbStart
| GbYield30 (row : T)
| GbYield37
| GbClosed.

Record GroupByState : Type := {
  gb_rows : Readable T;
  currentGroupKey : JsValue;
  currentGroup : list T;
  gb_pc : GroupByPc
}.

(** One pass through lines 27-34 from the head of the loop body, up to the
    next iteration, the [yield] of line 30, or an exception of [f]. *)
Inductive BodyResult : Type :=
| Continue (key : JsValue) (group : list T)
| Suspend30
| BodyThrow (e : JsError).

Definition loop_body (f : T -> Completion JsValue)
    (key : JsValue) (group : list T) (row : T) : BodyResult :=
  if strict_eq key JsUndefined then
    match f row with
    | Normal k => Continue k (group ++ [row])
    | Abrupt e => BodyThrow e
    end
  else
    match f row with
    | Normal k =>
        if strict_neq key k then Suspend30
        else Continue key (group ++ [row])
    | Abrupt e => BodyThrow e
    end.

(** The [for await] loop of lines 26-35 followed by lines 36-38, from the
    head of the loop, over the rows the stream still delivers. *)
Fixpoint groupBy_loop (f : T -> Completion JsValue)
    (rows : list T) (fail : option JsError)
    (key : JsValue) (group : list T)
    : IteratorResult (list T) * GroupByState :=
  match rows with
  | row :: rest =>
      match loop_body f key group row with
      | Continue key' group' => groupBy_loop f rest fail key' group'
      | Suspend30 =>
          (IterValue group,
           {| gb_rows := {| pending := rest; failure := fail;
                            destroyed := false |};
              currentGroupKey := key; currentGroup := group;
              gb_pc := GbYield30 row |})
      | BodyThrow e =>
          (IterThrow e,
           {| gb_rows := {| pending := rest; failure := fail;
                            destroyed := true |};
              currentGroupKey := key; currentGroup := group;
              gb_pc := GbClosed |})
      end
  | [] =>
      let ended := {| pending := []; failure := fail; destroyed := true |} in
      match fail with
      | Some e =>
          (IterThrow e,
           {| gb_rows := ended; currentGroupKey := key;
              currentGroup := group; gb_pc := GbClosed |})
      | None =>
          if (0 <? length group)%nat then
            (IterValue group,
             {| gb_rows := ended; currentGroupKey := key;
                currentGroup := group; gb_pc := GbYield37 |})
          else
            (IterDone,
             {| gb_rows := ended; currentGroupKey := key;
                currentGroup := group; gb_pc := GbClosed |})
      end
  end.

(** Entering the loop: a destroyed stream delivers nothing. *)
Definition groupBy_enter (f : T -> Completion JsValue) (rows : Readable T)
    (key : JsValue) (group : list T)
    : IteratorResult (list T) * GroupByState :=
  if destroyed rows then
    (if (0 <? length group)%nat then
       (IterValue group,
        {| gb_rows := rows; currentGroupKey := key;
           currentGroup := group; gb_pc := GbYield37 |})
     else
       (IterDone,
        {| gb_rows := rows; currentGroupKey := key;
           currentGroup := group; gb_pc := GbClosed |}))
  else groupBy_loop f (pending rows) (failure rows) key group.

Definition groupBy_close (st : GroupByState) : GroupByState :=
  {| gb_rows := gb_rows st; currentGroupKey := currentGroupKey st;
     currentGroup := currentGroup st; gb_pc := GbClosed |}.

Definition groupBy_next (f : T -> Completion JsValue) (st : GroupByState)
    : IteratorResult (list T) * GroupByState :=
  match gb_pc st with
  | GbStart =>
      (* lines 24-25, then the loop *)
      groupBy_enter f (gb_rows st) JsUndefined []
  | GbYield30 row =>
      (* lines 31-34, then the next iteration *)
      match f row with
      | Normal k => groupBy_enter f (gb_rows st) k ([] ++ [row])
      | Abrupt e =>
          (IterThrow e,
           {| gb_rows := Readable_destroy (gb_rows st);
              currentGroupKey := currentGroupKey st;
              currentGroup := currentGroup st; gb_pc := GbClosed |})
      end
  | GbYield37 => (IterDone, groupBy_close st)
  | GbClosed => (IterDone, st)
  end.

(** [return()]: a generator suspended inside the loop closes the stream it
    iterates; one that has not started, or is past the loop, does not
    touch it. *)
Definition groupBy_return (st : GroupByState) : GroupByState :=
  match gb_pc st with
  | GbYield30 _ =>
      {| gb_rows := Readable_destroy (gb_rows st);
         currentGroupKey := currentGroupKey st;
         currentGroup := currentGroup st; gb_pc := GbClosed |}
  | _ => groupBy_close st
  end.

Definition groupBy (rows : Readable T) (f : T -> Completion JsValue)
    : AsyncGenerator (list T) :=
  {| St := GroupByState;
     state := {| gb_rows := rows; currentGroupKey := JsUndefined;
                 currentGroup := []; gb_pc := GbStart |};
     next := groupBy_next f;
     return_ := groupBy_return |}.
End GroupBy.
Arguments GroupByPc : clear implicits.
Arguments GroupByState : clear implicits.

(** ** [map] (index.ts, lines 41-45) *)

Inductive MapPc : Type :=
| MapStart
| MapYield43
| MapClosed.

Section Map.
Context {T B : Type}.

Definition map_next (rows : AsyncGenerator T) (f : T -> Completion B)
    (st : MapPc * St rows) : IteratorResult B * (MapPc * St rows) :=
  match fst st with
  | MapClosed => (IterDone, st)
  | _ =>
      match next rows (snd st) with
      | (IterValue row, s') =>
          match f row with
          | Normal b => (IterValue b, (MapYield43, s'))
          | Abrupt e => (IterThrow e, (MapClosed, return_ rows s'))
          end
      | (IterDone, s') => (IterDone, (MapClosed, s'))
      | (IterThrow e, s') => (IterThrow e, (MapClosed, s'))
      end
  end.

Definition map_return (rows : AsyncGenerator T)
    (st : MapPc * St rows) : MapPc * St rows :=
  match fst st with
  | MapYield43 => (MapClosed, return_ rows (snd st))
  | _ => (MapClosed, snd st)
  end.

Definition map (rows : AsyncGenerator T) (f : T -> Completion B)
    : AsyncGenerator B :=
  {| St := MapPc * St rows;
     state := (MapStart, state rows);
     next := map_next rows f;
     return_ := map_return rows |}.
End Map.

(** ** The consumer

    [pipeline(Readable.from(gen), writable)] pulls from the generator until
    it is done or fails; [fuel] bounds the number of [next()] calls. *)

Inductive Outcome : Type :=
| Finished
| Failed (e : JsError)
| Unfinished.

Record Run (A S : Type) : Type := {
  written : list A;
  outcome : Outcome;
  final : S
}.
Arguments written {A S} _.
Arguments outcome {A S} _.
Arguments final {A S} _.

Fixpoint consume {A} (g : AsyncGenerator A) (fuel : nat) (s : St g)
    : Run A (St g) :=
  match fuel with
  | 0 => {| written := []; outcome := Unfinished; final := s |}
  | S fuel' =>
      match next g s with
      | (IterValue a, s') =>
          let r := consume g fuel' s' in
          {| written := a :: written r; outcome := outcome r;
             final := final r |}
      | (IterDone, s') =>
          {| written := []; outcome := Finished; final := s' |}
      | (IterThrow e, s') =>
          {| written := []; outcome := Failed e; final := s' |}
      end
  end.

Definition run {A} (g : AsyncGenerator A) (fuel : nat) : Run A (St g) :=
  consume g fuel (state g).

(** ** The pipeline of [main] (index.ts, lines 68-88) *)

(** A row of the query result: an object, read by column name.  Reading a
    column the row does not have gives [undefined]. *)
Abbreviation Row := (gmap string JsValue).

Definition get (row : Row) (column : string) : JsValue :=
  default JsUndefined (row !! column).

(** [Line] and [Reservation] are compile-time types only: the fields hold
    whatever the row held. *)
Record Line : Type := {
  line_id : JsValue;
  description : JsValue;
  quantity : JsValue
}.

Record Reservation : Type := {
  id : JsValue;
  storeId : JsValue;
  lines : list Line
}.

(** Line 70: [(r) => r["reservation_id"]]; reading a property of a row
    does not throw. *)
Definition reservation_id_of (r : Row) : JsValue := get r "reservation_id".

Definition reservation_key : Row -> Completion JsValue :=
  total reservation_id_of.

(** Lines 78-82: the projection of a row into a [Line]. *)
Definition to_line (row : Row) : Line :=
  {| line_id := get row "reservation_line_id";
     description := get row "description";
     quantity := get row "quantity" |}.

(** Lines 71-85.  [groupedRows[0]] of an empty array is [undefined], and
    reading a property of [undefined] throws a TypeError. *)
Definition to_reservation (groupedRows : list Row) : Completion Reservation :=
  match groupedRows with
  | [] => Abrupt (TypeError "Cannot read properties of undefined")
  | firstRow :: _ =>
      Normal
        {| id := get firstRow "reservation_id";
           storeId := get firstRow "store_id";
           lines :=
             if strict_neq (get firstRow "reservation_line_id") JsNull
             then List.map to_line groupedRows
             else [] |}
  end.

Section Main.
(** [JSON.stringify] on a [Reservation]; a library function. *)
Variable JSON_stringify : Reservation -> string.

(** Line 87: the JSON text followed by a line feed. *)
Definition to_json_line (r : Reservation) : Completion string :=
  Normal (String.append (JSON_stringify r) (String (ascii_of_nat 10) EmptyString)).

(** Lines 68-86: the reservations, one per group. *)
Definition reservations (rows : Readable Row) : AsyncGenerator Reservation :=
  map (groupBy rows reservation_key) to_reservation.

(** Lines 68-88. *)
Definition groupedReservations (rows : Readable Row) : AsyncGenerator string :=
  map (reservations rows) to_json_line.
End Main.

(** ** The in-memory version (README.md, lines 61-96)

    [groupAndTransformRowsToReservations(rows: any[])], the function that
    [groupBy] and [map] were factored out of: it takes the rows as an array
    and returns the array of the reservations. *)

(** Lines 67-71 and 74-78: the reservation that a row opens. *)
Definition open_reservation (row : Row) : Reservation :=
  {| id := get row "reservation_id";
     storeId := get row "store_id";
     lines := [] |}.

(** Lines 80-90: the current reservation with the line of [row] added. *)
Definition with_line (currentReservation : Reservation) (row : Row)
    : Reservation :=
  {| id := id currentReservation;
     storeId := storeId currentReservation;
     lines := lines currentReservation ++ [to_line row] |}.

(** The loop of lines 64-91 followed by lines 92-95;
    [currentReservation] is [None] while it is [undefined]. *)
Fixpoint groupAndTransform_loop (rows : list Row)
    (currentReservation : option Reservation)
    (groupedReservations : list Reservation) : list Reservation :=
  match rows with
  | row :: rest =>
      let rowId := get row "reservation_id" in
      match currentReservation with
      | None =>
          groupAndTransform_loop rest
            (Some (with_line (open_reservation row) row))
            groupedReservations
      | Some current =>
          if strict_neq (id current) rowId then
            groupAndTransform_loop rest
              (Some (with_line (open_reservation row) row))
              (groupedReservations ++ [current])
          else
            groupAndTransform_loop rest
              (Some (with_line current row))
              groupedReservations
      end
  | [] =>
      match currentReservation with
      | Some current => groupedReservations ++ [current]
      | None => groupedReservations
      end
  end.

Definition groupAndTransformRowsToReservations (rows : list Row)
    : list Reservation :=
  groupAndTransform_loop rows None [].

(** ** The vocabulary of the properties *)

(** The number of places in [prev :: keys] where a key is not [===] to the
    key before it. *)
Fixpoint changes (prev : JsValue) (keys : list JsValue) : nat :=
  match keys with
  | [] => 0
  | k :: rest => (if strict_eq prev k then 0 else 1) + changes k rest
  end.

(** The number of maximal runs of [===]-equal consecutive keys. *)
Definition runs (keys : list JsValue) : nat :=
  match keys with
  | [] => 0
  | k :: rest => S (changes k rest)
  end.

(** [keys] without its leading keys that are [===] to [k]. *)
Fixpoint drop_run (k : JsValue) (keys : list JsValue) : list JsValue :=
  match keys with
  | [] => []
  | k' :: rest => if strict_eq k k' then drop_run k rest else keys
  end.

(** The sorted-by-key precondition: all the records that share a key are
    contiguous, that is, once a run of a key has ended the key does not
    come back. *)
Fixpoint contiguous (keys : list JsValue) : bool :=
  match keys with
  | [] => true
  | k :: rest =>
      negb (existsb (strict_eq k) (drop_run k rest))
      && contiguous rest
  end.

(** No key [undefined] is directly followed by a key that is not
    [undefined]. *)
Fixpoint sentinel_free (keys : list JsValue) : bool :=
  match keys with
  | a :: rest =>
      match rest with
      | b :: _ => (strict_neq a JsUndefined || strict_eq b JsUndefined)
      | [] => true
      end && sentinel_free rest
  | [] => true
  end.

(** No key is [undefined]. *)
Definition keys_defined (keys : list JsValue) : bool :=
  forallb (fun key => strict_neq key JsUndefined) keys.

(** What [groupBy] promises of one group: it is not empty and its records
    have one key. *)
Definition uniform {T} (k : T -> JsValue) (g : list T) : Prop :=
  g <> [] /\ exists key, Forall (fun r => k r = key) g.

(** [row["reservation_line_id"] !== null]. *)
Definition has_line (row : Row) : bool :=
  strict_neq (get row "reservation_line_id") JsNull.

(** The projections of the records of a group whose
    [reservation_line_id] is not [null]. *)
Definition lines_of_non_null (group : list Row) : list Line :=
  to_line <$> List.filter has_line group.

(** The records of [group] agree with [first] on whether the
    [reservation_line_id] is [null]. *)
Definition agree_with (first : Row) (group : list Row) : bool :=
  forallb (fun r => Bool.eqb (has_line r) (has_line first)) group.

(** ** Views of a run, used in the proofs *)

(** What the consumer does with the settlement of one [next()]. *)
Definition after {A} (g : AsyncGenerator A) (fuel : nat)
    (r : IteratorResult A * St g) : Run A (St g) :=
  match r with
  | (IterValue a, s') =>
      let r' := consume g fuel s' in
      {| written := a :: written r'; outcome := outcome r';
         final := final r' |}
  | (IterDone, s') => {| written := []; outcome := Finished; final := s' |}
  | (IterThrow e, s') => {| written := []; outcome := Failed e; final := s' |}
  end.

(** The groups that the loop emits from its head, in the state
    [currentGroupKey = key], [currentGroup = group], over the rows [rows]
    of a stream that then ends, for a key function [k] that does not
    throw. *)
Fixpoint emitted {T} (k : T -> JsValue) (key : JsValue) (group rows : list T)
    : list (list T) :=
  match rows with
  | [] => if (0 <? length group)%nat then [group] else []
  | row :: rest =>
      if strict_eq key JsUndefined then emitted k (k row) (group ++ [row]) rest
      else if strict_eq key (k row) then emitted k key (group ++ [row]) rest
      else group :: emitted k (k row) [row] rest
  end.

(** [f] over [xs] up to the first element on which it throws. *)
Fixpoint map_until {A B} (f : A -> Completion B) (xs : list A)
    : list B * option JsError :=
  match xs with
  | [] => ([], None)
  | x :: rest =>
      match f x with
      | Normal b => (b :: fst (map_until f rest), snd (map_until f rest))
      | Abrupt e => ([], Some e)
      end
  end.

(** ** Sample rows *)

Definition object (fields : list (string * JsValue)) : Row :=
  list_to_map fields.

(** [(r) => r["key"]]. *)
Definition key_of (r : Row) : JsValue := get r "key".

(** A row of the join: a reservation and one of its lines, or [null]s for
    a reservation that has none. *)
Definition joined (reservation : Z) (store : string) (line : JsValue) : Row :=
  object [("reservation_id", JsNumber reservation);
          ("store_id", JsString store);
          ("reservation_line_id", line);
          ("description",
           match line with JsNull => JsNull | _ => JsString "item" end);
          ("quantity",
           match line with JsNull => JsNull | _ => JsNumber 1 end)].

Definition sample_rows : list Row :=
  [joined 1 "s1" (JsString "a"); joined 1 "s1" (JsString "b");
   joined 2 "s2" JsNull].

(** A record without a ["key"] property, followed by a record of key 1. *)
Definition keyless_then_keyed : list Row :=
  [object [("name", JsString "x")]; object [("key", JsNumber 1)]].

(** A record of key 1, followed by a record without a ["key"] property. *)
Definition keyed_then_keyless : list Row :=
  [object [("key", JsNumber 1)]; object [("name", JsString "x")]].

(** Throws on every group but a group of two rows. *)
Definition pairs_only (g : list Row) : Completion nat :=
  if (length g =? 2)%nat then Normal (length g)
  else Abrupt (TypeError "not a pair").

(** ** Further views of the loop of [groupBy] *)

(** The groups that the loop closes (the [yield] of line 30) from its head
    over [rows], the group that is open when the rows are exhausted left
    out. *)
Fixpoint closed {T} (k : T -> JsValue) (key : JsValue) (group rows : list T)
    : list (list T) :=
  match rows with
  | [] => []
  | row :: rest =>
      if strict_eq key JsUndefined then closed k (k row) (group ++ [row]) rest
      else if strict_eq key (k row) then closed k key (group ++ [row]) rest
      else group :: closed k (k row) [row] rest
  end.

(** [currentGroupKey] and [currentGroup] when the loop has gone through
    [rows]. *)
Fixpoint last_state {T} (k : T -> JsValue) (key : JsValue)
    (group rows : list T) : JsValue * list T :=
  match rows with
  | [] => (key, group)
  | row :: rest =>
      if strict_eq key JsUndefined
      then last_state k (k row) (group ++ [row]) rest
      else if strict_eq key (k row) then last_state k key (group ++ [row]) rest
      else last_state k (k row) [row] rest
  end.

(** A run that first writes [xs]. *)
Definition prepend {A S} (xs : list A) (r : Run A S) : Run A S :=
  {| written := xs ++ written r; outcome := outcome r; final := final r |}.

(** The rows that a [groupBy] generator has not put in a group it has
    emitted or will not emit any more: the row it holds at the [yield] of
    line 30 and the rows still in the stream. *)
Definition unread {T} (st : GroupByState T) : list T :=
  match gb_pc st with
  | GbStart => pending (gb_rows st)
  | GbYield30 row => row :: pending (gb_rows st)
  | GbYield37 => []
  | GbClosed => []
  end.

(** A stream that delivers [rows] and then fails with [e]. *)
Definition Readable_failing {T} (rows : list T) (e : JsError) : Readable T :=
  {| pending := rows; failure := Some e; destroyed := false |}.

(** A key function that throws on the rows without a reservation id. *)
Definition strict_reservation_key (r : Row) : Completion JsValue :=
  match r !! "reservation_id" with
  | Some v => Normal v
  | None => Abrupt (TypeError "no reservation_id")
  end.

(** Lines 27 and 29 keep a record of key [b] in the group of a record of
    key [a]: [a] is [undefined], or [a === b]. *)
Definition linked (a b : JsValue) : bool :=
  strict_eq a JsUndefined || strict_eq a b.

(** Every key of [keys] is linked to the next. *)
Fixpoint chained (keys : list JsValue) : bool :=
  match keys with
  | a :: rest =>
      match rest with
      | b :: _ => linked a b
      | [] => true
      end && chained rest
  | [] => true
  end.

(** The key of the last record of every group is not linked to the key of
    the first record of the next group. *)
Fixpoint separated {T} (k : T -> JsValue) (groups : list (list T)) : bool :=
  match groups with
  | g1 :: rest =>
      match rest with
      | g2 :: _ =>
          match last g1, head g2 with
          | Some a, Some b => negb (linked (k a) (k b))
          | _, _ => false
          end
      | [] => true
      end && separated k rest
  | [] => true
  end.

(** The loop keeps [currentGroupKey] equal to the key of the last record of
    [currentGroup], and [undefined] while the group is empty. *)
Definition key_of_last {T} (k : T -> JsValue) (key : JsValue)
    (group : list T) : Prop :=
  match last group with
  | Some a => key = k a
  | None => key = JsUndefined
  end.

(** [x => f2(f1(x))]: an exception of [f1] or of [f2] is an exception of
    the composition. *)
Definition and_then {A B C} (f1 : A -> Completion B) (f2 : B -> Completion C)
    : A -> Completion C :=
  fun a =>
    match f1 a with
    | Normal b => f2 b
    | Abrupt e => Abrupt e
    end.

(** The reservation that the transform returns for a group (for the empty
    group, on which it throws, a reservation without content). *)
Definition reservation_of (group : list Row) : Reservation :=
  match to_reservation group with
  | Normal r => r
  | Abrupt _ => {| id := JsUndefined; storeId := JsUndefined; lines := [] |}
  end.

(** The line written for a reservation. *)
Definition json_line (JSON_stringify : Reservation -> string)
    (r : Reservation) : string :=
  String.append (JSON_stringify r) (String (ascii_of_nat 10) EmptyString).

(** The key of a group as the transform of [main] reads it: the key of
    [groupedRows[0]]. *)
Definition group_key {T} (k : T -> JsValue) (group : list T) : JsValue :=
  match group with
  | r :: _ => k r
  | [] => JsUndefined
  end.

(** No two keys of the list are [===]. *)
Fixpoint distinct_keys (keys : list JsValue) : bool :=
  match keys with
  | [] => true
  | a :: rest => negb (existsb (strict_eq a) rest) && distinct_keys rest
  end.

(** The keys of [keys] that are not linked to the key before them, [prev]
    being the key before the first. *)
Fixpoint cut_keys (prev : JsValue) (keys : list JsValue) : list JsValue :=
  match keys with
  | [] => []
  | b :: rest =>
      if linked prev b then cut_keys b rest else b :: cut_keys b rest
  end.

(** A reservation without its lines when the first of them has the id
    [null]. *)
Definition without_null_lines (r : Reservation) : Reservation :=
  {| id := id r;
     storeId := storeId r;
     lines :=
       match lines r with
       | l :: _ => if strict_neq (line_id l) JsNull then lines r else []
       | [] => []
       end |}.

(** The reservation of a group with a line for every row. *)
Definition full_reservation (group : list Row) : Reservation :=
  {| id := group_key reservation_id_of group;
     storeId := group_key (fun r => get r "store_id") group;
     lines := to_line <$> group |}.

(** ** Strict equality *)

Lemma strict_eq_eq (a b : JsValue) : strict_eq a b = true -> a = b.
Proof.
  destruct a, b; simpl; try discriminate; intros H; try reflexivity.
  - apply Bool.eqb_prop in H. congruence.
  - apply Z.eqb_eq in H. congruence.
  - apply String.eqb_eq in H. congruence.
  - apply Pos.eqb_eq in H. congruence.
Qed.

Lemma strict_eq_undefined (a : JsValue) :
  strict_eq a JsUndefined = true <-> a = JsUndefined.
Proof.
  split; [apply strict_eq_eq | intros ->; reflexivity].
Qed.

Lemma strict_eq_defined (a : JsValue) :
  a <> JsUndefined -> strict_eq a JsUndefined = false.
Proof.
  intros H. destruct (strict_eq a JsUndefined) eqn:E; [|reflexivity].
  apply strict_eq_undefined in E. contradiction.
Qed.

(** ** The loop of [groupBy] is a [for await] over the stream *)

(** [groupBy_enter] recurses on the rows the stream holds; this is what
    iterating the stream does: ask it for the next row, run the loop body
    on it, and go on; leave the loop when the stream is done, and fail when
    it fails or when the body throws, which destroys the stream. *)
Lemma groupBy_enter_for_await {T} (f : T -> Completion JsValue)
    (rows : Readable T) (key : JsValue) (group : list T) :
  groupBy_enter f rows key group
  = match Readable_next rows with
    | (IterValue row, rows') =>
        match loop_body f key group row with
        | Continue key' group' => groupBy_enter f rows' key' group'
        | Suspend30 =>
            (IterValue group,
             {| gb_rows := rows'; currentGroupKey := key;
                currentGroup := group; gb_pc := GbYield30 row |})
        | BodyThrow e =>
            (IterThrow e,
             {| gb_rows := Readable_destroy rows'; currentGroupKey := key;
                currentGroup := group; gb_pc := GbClosed |})
        end
    | (IterDone, rows') =>
        if (0 <? length group)%nat then
          (IterValue group,
           {| gb_rows := rows'; currentGroupKey := key;
              currentGroup := group; gb_pc := GbYield37 |})
        else
          (IterDone,
           {| gb_rows := rows'; currentGroupKey := key;
              currentGroup := group; gb_pc := GbClosed |})
    | (IterThrow e, rows') =>
        (IterThrow e,
         {| gb_rows := rows'; currentGroupKey := key;
            currentGroup := group; gb_pc := GbClosed |})
    end.
Proof.
  destruct rows as [pend fail [|]]; [reflexivity|].
  unfold groupBy_enter, Readable_next. cbn [destroyed pending failure].
  destruct pend as [|row rest].
  - destruct fail; reflexivity.
  - cbn [groupBy_loop]. destruct (loop_body f key group row); reflexivity.
Qed.

(** ** Running a generator *)

Lemma consume_S {A} (g : AsyncGenerator A) fuel s :
  consume g (S fuel) s = after g fuel (next g s).
Proof. simpl. destruct (next g s) as [[a| |e] s']; reflexivity. Qed.

(** Once the consumer has seen the end or a failure, more fuel changes
    nothing. *)
Lemma consume_more {A} (g : AsyncGenerator A) fuel :
  forall s fuel', outcome (consume g fuel s) <> Unfinished ->
    fuel <= fuel' -> consume g fuel' s = consume g fuel s.
Proof.
  induction fuel as [|n IH]; intros s fuel' Hout Hle.
  - simpl in Hout. congruence.
  - destruct fuel' as [|m]; [lia|].
    rewrite !consume_S. rewrite consume_S in Hout.
    destruct (next g s) as [[a| |e] s']; simpl in *; try reflexivity.
    rewrite (IH s' m); [reflexivity | assumption | lia].
Qed.

(** ** The groups [groupBy] emits *)

Section Groups.
Context {T : Type} (k : T -> JsValue).

Lemma loop_body_total key group row :
  loop_body (total k) key group row
  = if strict_eq key JsUndefined then Continue (k row) (group ++ [row])
    else if strict_eq key (k row) then Continue key (group ++ [row])
    else Suspend30.
Proof.
  unfold loop_body, total, strict_neq.
  destruct (strict_eq key JsUndefined), (strict_eq key (k row)); reflexivity.
Qed.

Lemma ltb_length_snoc (group : list T) (row : T) :
  (0 <? length (group ++ [row]))%nat = true.
Proof. apply Nat.ltb_lt. rewrite length_app. simpl. lia. Qed.

Lemma groupBy_loop_emitted (src : Readable T) :
  forall rows key group fuel,
    (group = [] -> key = JsUndefined) ->
    length rows + (if (0 <? length group)%nat then 1 else 0) <= fuel ->
    written (after (groupBy src (total k)) fuel
               (groupBy_loop (total k) rows None key group))
      = emitted k key group rows
    /\ outcome (after (groupBy src (total k)) fuel
                  (groupBy_loop (total k) rows None key group))
      = Finished.
Proof.
  induction rows as [|row rest IH]; intros key group fuel Hinv Hfuel.
  - simpl. destruct (0 <? length group)%nat eqn:E; simpl.
    + destruct fuel as [|n]; [simpl in Hfuel; lia|]. simpl. auto.
    + auto.
  - cbn [groupBy_loop emitted]. rewrite loop_body_total.
    destruct (strict_eq key JsUndefined) eqn:Eu.
    + apply IH; [intros Hnil; destruct group; discriminate|].
      rewrite ltb_length_snoc. simpl in Hfuel.
      destruct (0 <? length group)%nat; lia.
    + assert (Hpos : (0 <? length group)%nat = true).
      { apply Nat.ltb_lt. destruct group; [|simpl; lia].
        rewrite Hinv in Eu by reflexivity. discriminate. }
      rewrite Hpos in Hfuel. simpl in Hfuel.
      destruct (strict_eq key (k row)) eqn:Ek.
      * apply IH; [intros Hnil; destruct group; discriminate|].
        rewrite ltb_length_snoc. lia.
      * destruct fuel as [|n]; [lia|].
        unfold after. rewrite consume_S.
        cbn [next groupBy groupBy_next gb_pc gb_rows groupBy_enter destroyed
             pending failure].
        change (total k row) with (Normal (k row)). cbv iota.
        destruct (IH (k row) ([] ++ [row]) n) as [Hw Ho];
          [discriminate | simpl; lia |].
        cbn [written outcome]. rewrite Hw, Ho. auto.
Qed.

(** [groupBy] over a stream that delivers [rows] and ends, consumed to
    the end. *)
Lemma run_groupBy (rows : list T) (fuel : nat) :
  length rows < fuel ->
  written (run (groupBy (Readable_from rows) (total k)) fuel)
    = emitted k JsUndefined [] rows
  /\ outcome (run (groupBy (Readable_from rows) (total k)) fuel) = Finished.
Proof.
  intros Hfuel. destruct fuel as [|n]; [lia|].
  unfold run. rewrite consume_S.
  cbn [next groupBy groupBy_next gb_pc gb_rows state groupBy_enter
       Readable_from destroyed pending failure].
  apply groupBy_loop_emitted; [reflexivity | simpl; lia].
Qed.
End Groups.

(** ** Properties of the emitted groups *)

Lemma keys_defined_sentinel_free (keys : list JsValue) :
  keys_defined keys = true -> sentinel_free keys = true.
Proof.
  induction keys as [|a rest IH]; [reflexivity|].
  simpl. intros H. apply andb_true_iff in H as [Ha Hrest].
  rewrite Ha, (IH Hrest). destruct rest; reflexivity.
Qed.

Lemma sentinel_free_cons (a b : JsValue) (rest : list JsValue) :
  sentinel_free (a :: b :: rest) = true ->
  (strict_eq a JsUndefined = true -> b = JsUndefined)
  /\ sentinel_free (b :: rest) = true.
Proof.
  cbn [sentinel_free]. unfold strict_neq. intros H.
  apply andb_true_iff in H as [H1 H2]. split; [|exact H2].
  intros Ea. rewrite Ea in H1. simpl in H1. apply strict_eq_eq. exact H1.
Qed.

Section GroupProperties.
Context {T : Type} (k : T -> JsValue).

Lemma concat_emitted (rows : list T) :
  forall key group, concat (emitted k key group rows) = group ++ rows.
Proof.
  induction rows as [|row rest IH]; intros key group; simpl.
  - destruct group; simpl; rewrite ?app_nil_r; reflexivity.
  - destruct (strict_eq key JsUndefined); [|destruct (strict_eq key (k row))];
      simpl; rewrite IH, <- ?app_assoc; reflexivity.
Qed.

(** From a state whose group is not empty, the loop emits one group more
    than there are key changes ahead. *)
Lemma length_emitted (rows : list T) :
  forall key group,
    group <> [] -> sentinel_free (key :: (k <$> rows)) = true ->
    length (emitted k key group rows) = S (changes key (k <$> rows)).
Proof.
  induction rows as [|row rest IH]; intros key group Hgroup Hfree.
  - simpl. destruct group; [congruence | reflexivity].
  - rewrite fmap_cons in Hfree |- *.
    apply sentinel_free_cons in Hfree as [Hu Hfree].
    assert (Hsnoc : group ++ [row] <> []) by (destruct group; discriminate).
    cbn [emitted changes].
    destruct (strict_eq key JsUndefined) eqn:Eu.
    + apply strict_eq_eq in Eu. rewrite Eu, (Hu eq_refl). simpl.
      rewrite <- (Hu eq_refl). apply IH; assumption.
    + destruct (strict_eq key (k row)) eqn:Ek.
      * apply strict_eq_eq in Ek. subst key. simpl. apply IH; assumption.
      * simpl. rewrite IH; [reflexivity | discriminate | assumption].
Qed.

Lemma length_emitted_start (rows : list T) :
  sentinel_free (k <$> rows) = true ->
  length (emitted k JsUndefined [] rows) = runs (k <$> rows).
Proof.
  destruct rows as [|row rest]; intros Hfree; [reflexivity|].
  simpl. apply length_emitted; [discriminate | assumption].
Qed.

Lemma uniform_emitted (rows : list T) :
  forall key group,
    group <> [] -> Forall (fun r => k r = key) group ->
    sentinel_free (key :: (k <$> rows)) = true ->
    Forall (uniform k) (emitted k key group rows).
Proof.
  induction rows as [|row rest IH]; intros key group Hgroup Hall Hfree.
  - simpl. destruct group; [congruence|]. simpl.
    constructor; [|constructor]. split; [discriminate | eauto].
  - rewrite fmap_cons in Hfree.
    apply sentinel_free_cons in Hfree as [Hu Hfree].
    assert (Hsnoc : group ++ [row] <> []) by (destruct group; discriminate).
    cbn [emitted].
    destruct (strict_eq key JsUndefined) eqn:Eu.
    + apply strict_eq_eq in Eu. apply IH; [assumption | | assumption].
      apply Forall_app. split.
      * rewrite (Hu eq_refl), <- Eu. assumption.
      * constructor; [reflexivity | constructor].
    + destruct (strict_eq key (k row)) eqn:Ek.
      * apply strict_eq_eq in Ek. subst key.
        apply IH; [assumption | | assumption].
        apply Forall_app. split; [assumption|].
        constructor; [reflexivity | constructor].
      * constructor; [split; [assumption | eauto]|].
        apply IH; [discriminate | | assumption].
        constructor; [reflexivity | constructor].
Qed.

Lemma uniform_emitted_start (rows : list T) :
  sentinel_free (k <$> rows) = true ->
  Forall (uniform k) (emitted k JsUndefined [] rows).
Proof.
  destruct rows as [|row rest]; intros Hfree; [constructor|].
  simpl. apply uniform_emitted; [discriminate | | assumption].
  constructor; [reflexivity | constructor].
Qed.
End GroupProperties.

(** A member of a list of lists is a segment of their concatenation. *)
Lemma segment_of_concat {A} (gs : list (list A)) (g : list A) :
  g ∈ gs -> exists before behind, concat gs = before ++ g ++ behind.
Proof.
  induction gs as [|h gs IH]; intros Hin.
  - apply elem_of_nil in Hin. contradiction.
  - apply elem_of_cons in Hin as [->|Hin].
    + exists [], (concat gs). reflexivity.
    + destruct (IH Hin) as (before & behind & E).
      exists (h ++ before), behind. simpl. rewrite E, <- app_assoc. reflexivity.
Qed.

(** ** The [undefined] sentinel *)

Section Sentinel.
Context {T : Type} (k : T -> JsValue).

(** A non-empty current group is a prefix of the next group emitted. *)
Lemma emitted_head (rows : list T) :
  forall key group, group <> [] ->
    exists g gs, emitted k key group rows = (group ++ g) :: gs.
Proof.
  induction rows as [|row rest IH]; intros key group Hne.
  - exists [], []. simpl. destruct group; [congruence|].
    rewrite app_nil_r. reflexivity.
  - assert (Hsnoc : group ++ [row] <> []) by (destruct group; discriminate).
    cbn [emitted].
    destruct (strict_eq key JsUndefined); [|destruct (strict_eq key (k row))].
    + destruct (IH (k row) _ Hsnoc) as (g & gs & E).
      exists (row :: g), gs. rewrite E, <- app_assoc. reflexivity.
    + destruct (IH key _ Hsnoc) as (g & gs & E).
      exists (row :: g), gs. rewrite E, <- app_assoc. reflexivity.
    + exists [], (emitted k (k row) [row] rest).
      rewrite app_nil_r. reflexivity.
Qed.

(** The record that follows a record of key [undefined] is put in the
    group of that record. *)
Lemma emitted_after_undefined (u r : T) (behind : list T) :
  k u = JsUndefined ->
  forall before key group,
    exists gs1 g1 g2 gs2,
      emitted k key group (before ++ u :: r :: behind)
      = gs1 ++ (g1 ++ u :: r :: g2) :: gs2.
Proof.
  intros Hu. induction before as [|x before IH]; intros key group.
  - cbn [app emitted]. rewrite Hu.
    destruct (strict_eq key JsUndefined) eqn:Eu.
    + cbn [emitted strict_eq].
      destruct (emitted_head behind (k r) ((group ++ [u]) ++ [r]))
        as (g & gs & E); [destruct (group ++ [u]); discriminate|].
      exists [], group, g, gs. rewrite E, <- !app_assoc. reflexivity.
    + cbn [emitted strict_eq].
      destruct (emitted_head behind (k r) [u; r])
        as (g & gs & E); [discriminate|].
      exists [group], [], g, gs. rewrite E. reflexivity.
  - cbn [app emitted].
    destruct (strict_eq key JsUndefined); [|destruct (strict_eq key (k x))];
      try apply IH.
    destruct (IH (k x) [x]) as (gs1 & g1 & g2 & gs2 & E).
    exists (group :: gs1), g1, g2, gs2. rewrite E. reflexivity.
Qed.
End Sentinel.

(** ** What [map] writes *)

Lemma map_until_total {A B} (h : A -> B) (xs : list A) :
  map_until (total h) xs = (h <$> xs, None).
Proof.
  induction xs as [|x rest IH]; [reflexivity|].
  simpl. rewrite IH. reflexivity.
Qed.

Lemma map_until_normal {A B} (f : A -> Completion B) (xs : list A) (ys : list B) :
  Forall2 (fun x y => f x = Normal y) xs ys -> map_until f xs = (ys, None).
Proof.
  induction 1 as [|x y xs ys Hxy _ IH]; [reflexivity|].
  simpl. rewrite Hxy, IH. reflexivity.
Qed.

Section MapRuns.
Context {T B : Type} (g : AsyncGenerator T) (f : T -> Completion B).

Lemma map_next_open (pc : MapPc) (s : St g) :
  pc <> MapClosed ->
  next (map g f) (pc, s)
  = match next g s with
    | (IterValue row, s') =>
        match f row with
        | Normal b => (IterValue b, (MapYield43, s'))
        | Abrupt e => (IterThrow e, (MapClosed, return_ g s'))
        end
    | (IterDone, s') => (IterDone, (MapClosed, s'))
    | (IterThrow e, s') => (IterThrow e, (MapClosed, s'))
    end.
Proof. destruct pc; [reflexivity | reflexivity | congruence]. Qed.

(** The values [map] writes are those of [f] over what its input
    delivers, cut at the first exception of [f]; it ends as its input
    ends, unless [f] throws first. *)
Lemma consume_map (fuel : nat) :
  forall (pc : MapPc) (s : St g),
    pc <> MapClosed ->
    written (consume (map g f) fuel (pc, s))
      = fst (map_until f (written (consume g fuel s)))
    /\ outcome (consume (map g f) fuel (pc, s))
      = match snd (map_until f (written (consume g fuel s))) with
        | Some e => Failed e
        | None => outcome (consume g fuel s)
        end.
Proof.
  induction fuel as [|n IH]; intros pc s Hpc; [split; reflexivity|].
  rewrite !consume_S, map_next_open by assumption.
  destruct (next g s) as [[row| |e] s'];
    cbn [after written outcome map_until fst snd]; auto.
  destruct (f row) as [b|e];
    cbn [after written outcome map_until fst snd]; auto.
  destruct (IH MapYield43 s') as [Hw Ho]; [discriminate|].
  rewrite Hw, Ho. auto.
Qed.

(** When [f] throws on the element of index [i] of the input, [map]
    fails there, having pulled [i + 1] elements, and closes its input. *)
Lemma consume_map_throw (i : nat) :
  forall (pc : MapPc) (s : St g) (before : list T) (x : T) (ys : list B)
         (e : JsError) (fuel : nat),
    pc <> MapClosed ->
    written (consume g (S i) s) = before ++ [x] ->
    length before = i ->
    Forall2 (fun a b => f a = Normal b) before ys ->
    f x = Abrupt e ->
    i < fuel ->
    consume (map g f) fuel (pc, s)
    = {| written := ys; outcome := Failed e;
         final := (MapClosed, return_ g (final (consume g (S i) s))) |}.
Proof.
  induction i as [|j IH];
    intros pc s before x ys e fuel Hpc Hw Hlen Hys Hx Hfuel;
    (destruct fuel as [|n]; [lia|]);
    rewrite consume_S, map_next_open by assumption;
    rewrite consume_S in Hw |- *;
    destruct (next g s) as [[row| |e'] s']; cbn [after written final] in Hw |- *;
    try (destruct before; discriminate).
  - destruct before; [|discriminate]. inversion Hys; subst.
    simpl in Hw. injection Hw as ->. rewrite Hx. reflexivity.
  - destruct before as [|a before]; [discriminate|].
    simpl in Hw, Hlen. injection Hw as -> Hw. injection Hlen as Hlen.
    inversion Hys as [|? b ? ys' Hab Hys']; subst.
    rewrite Hab. cbn [after].
    rewrite (IH MapYield43 s' before x ys' e n);
      [reflexivity | discriminate | assumption | reflexivity | assumption
      | assumption | lia].
Qed.
End MapRuns.

Lemma run_map {T B} (g : AsyncGenerator T) (f : T -> Completion B) (fuel : nat) :
  written (run (map g f) fuel) = fst (map_until f (written (run g fuel)))
  /\ outcome (run (map g f) fuel)
     = match snd (map_until f (written (run g fuel))) with
       | Some e => Failed e
       | None => outcome (run g fuel)
       end.
Proof. apply (consume_map g f fuel MapStart (state g)). discriminate. Qed.

Lemma filter_agree (b : bool) (group : list Row) :
  forallb (fun r => Bool.eqb (has_line r) b) group = true ->
  List.filter has_line group = if b then group else [].
Proof.
  induction group as [|r rest IH]; simpl; intros H.
  - destruct b; reflexivity.
  - apply andb_true_iff in H as [Hr Hrest]. apply Bool.eqb_prop in Hr.
    rewrite Hr, (IH Hrest). destruct b; reflexivity.
Qed.

(** ** The claims on [groupBy] *)

(** C1.  The claim: on every input sorted by key, [groupBy] emits one
    group per maximal run of equal consecutive keys.  The code departs from
    it on the input below: its two records are sorted by key, their keys,
    [undefined] and 1, form two runs, and [groupBy] emits one group.  The
    key [undefined] of the first record is also the "no key yet" mark of
    line 27, so that the second record is taken for the first of its
    group. *)
Theorem groupBy_merges_run_after_undefined_key :
  contiguous (key_of <$> keyless_then_keyed) = true
  /\ runs (key_of <$> keyless_then_keyed) = 2
  /\ outcome (run (groupBy (Readable_from keyless_then_keyed)
                     (total key_of)) 3) = Finished
  /\ length (written (run (groupBy (Readable_from keyless_then_keyed)
                             (total key_of)) 3)) = 1
  /\ length (written (run (groupBy (Readable_from keyless_then_keyed)
                             (total key_of)) 3))
     <> runs (key_of <$> keyless_then_keyed).
Proof. vm_compute. repeat split. discriminate. Qed.

(** Away from that case the count holds.  For every input sequence, sorted
    by key or not, in which no record whose key is [undefined] is directly
    followed by a record whose key is not [undefined], and every key
    function, [groupBy] emits as many groups as the keys of the input have
    maximal runs of [===]-equal consecutive keys. *)
Theorem groupBy_one_group_per_run {T} (k : T -> JsValue) (rows : list T)
    (fuel : nat) :
  sentinel_free (k <$> rows) = true ->
  length rows < fuel ->
  outcome (run (groupBy (Readable_from rows) (total k)) fuel) = Finished
  /\ length (written (run (groupBy (Readable_from rows) (total k)) fuel))
     = runs (k <$> rows).
Proof.
  intros Hfree Hfuel. destruct (run_groupBy k rows fuel Hfuel) as [Hw Ho].
  split; [exact Ho|]. rewrite Hw. apply length_emitted_start. exact Hfree.
Qed.

Lemma groupBy_one_group_per_run_witness :
  sentinel_free (reservation_id_of <$> sample_rows) = true
  /\ length sample_rows < 4
  /\ outcome (run (groupBy (Readable_from sample_rows)
                     (total reservation_id_of)) 4) = Finished
  /\ length (written (run (groupBy (Readable_from sample_rows)
                             (total reservation_id_of)) 4))
     = runs (reservation_id_of <$> sample_rows).
Proof.
  split; [vm_compute; reflexivity|]. split; [simpl; lia|].
  apply (groupBy_one_group_per_run reservation_id_of sample_rows 4).
  - vm_compute; reflexivity.
  - simpl; lia.
Defined.

(** C2.  For every input sequence, sorted or not, and every key function,
    the groups that [groupBy] emits, concatenated in emission order, are the
    input sequence: no record is lost, duplicated or reordered. *)
Theorem groupBy_concat {T} (k : T -> JsValue) (rows : list T) (fuel : nat) :
  length rows < fuel ->
  outcome (run (groupBy (Readable_from rows) (total k)) fuel) = Finished
  /\ concat (written (run (groupBy (Readable_from rows) (total k)) fuel)) = rows.
Proof.
  intros Hfuel. destruct (run_groupBy k rows fuel Hfuel) as [Hw Ho].
  split; [exact Ho|]. rewrite Hw. apply concat_emitted.
Qed.

Lemma groupBy_concat_witness :
  length sample_rows < 4
  /\ outcome (run (groupBy (Readable_from sample_rows)
                     (total reservation_id_of)) 4) = Finished
  /\ concat (written (run (groupBy (Readable_from sample_rows)
                             (total reservation_id_of)) 4))
     = sample_rows.
Proof.
  split; [simpl; lia|].
  apply (groupBy_concat reservation_id_of sample_rows 4). simpl. lia.
Defined.

(** C3.  The claim: on every input sorted by key, the records of a group
    that [groupBy] emits all have the same key.  The code departs from it
    on the same sorted input: the one group that [groupBy] emits holds both
    records, whose keys, [undefined] and 1, differ. *)
Theorem groupBy_mixes_keys_after_undefined_key :
  contiguous (key_of <$> keyless_then_keyed) = true
  /\ outcome (run (groupBy (Readable_from keyless_then_keyed)
                     (total key_of)) 3) = Finished
  /\ written (run (groupBy (Readable_from keyless_then_keyed)
                     (total key_of)) 3) = [keyless_then_keyed]
  /\ ~ (exists key, Forall (fun r => key_of r = key) keyless_then_keyed).
Proof.
  split; [vm_compute; reflexivity|]. split; [vm_compute; reflexivity|].
  split; [vm_compute; reflexivity|].
  intros [key Hall]. unfold keyless_then_keyed in Hall.
  apply Forall_cons in Hall as [H1 Hall]. apply Forall_cons in Hall as [H2 _].
  vm_compute in H1, H2. congruence.
Qed.

(** Away from that case the groups have one key.  For every input
    sequence, sorted by key or not, in which no record whose key is
    [undefined] is directly followed by a record whose key is not
    [undefined], and every key function, every group that [groupBy] emits
    is non-empty, its records all have the same key, and it is a segment of
    the input: its records are consecutive records of the input, in source
    order.  (That the groups are not empty and are segments of the input
    holds on every input.) *)
Theorem groupBy_groups_uniform {T} (k : T -> JsValue) (rows : list T)
    (fuel : nat) :
  sentinel_free (k <$> rows) = true ->
  length rows < fuel ->
  outcome (run (groupBy (Readable_from rows) (total k)) fuel) = Finished
  /\ forall g, g ∈ written (run (groupBy (Readable_from rows) (total k)) fuel) ->
       g <> []
       /\ (exists key, Forall (fun r => k r = key) g)
       /\ (exists before behind, rows = before ++ g ++ behind).
Proof.
  intros Hfree Hfuel. destruct (run_groupBy k rows fuel Hfuel) as [Hw Ho].
  split; [exact Ho|]. rewrite Hw. intros g Hg.
  pose proof (uniform_emitted_start k rows Hfree) as Hall.
  rewrite Forall_forall in Hall. destruct (Hall g Hg) as [Hne Hkey].
  split; [exact Hne|]. split; [exact Hkey|].
  destruct (segment_of_concat _ g Hg) as (before & behind & E).
  rewrite concat_emitted in E. eauto.
Qed.

Lemma groupBy_groups_uniform_witness :
  let g := [joined 1 "s1" (JsString "a"); joined 1 "s1" (JsString "b")] in
  g <> []
  /\ (exists key, Forall (fun r => reservation_id_of r = key) g)
  /\ (exists before behind, sample_rows = before ++ g ++ behind).
Proof.
  apply (groupBy_groups_uniform reservation_id_of sample_rows 4).
  - vm_compute; reflexivity.
  - simpl; lia.
  - vm_compute. apply list_elem_of_here.
Defined.

(** C7.  On the empty input [groupBy] emits no group: its first [next()]
    already reports the end.  The whole pipeline, [groupBy] then
    [map] (to reservation) then [map] (to JSON line), then writes no
    line. *)
Theorem empty_input_no_output {T} (f : T -> Completion JsValue)
    (JSON_stringify : Reservation -> string) (fuel : nat) :
  0 < fuel ->
  fst (next (groupBy (Readable_from []) f)
         (state (groupBy (Readable_from []) f))) = IterDone
  /\ written (run (groupBy (Readable_from []) f) fuel) = []
  /\ outcome (run (groupBy (Readable_from []) f) fuel) = Finished
  /\ written (run (groupedReservations JSON_stringify (Readable_from [])) fuel)
     = []
  /\ outcome (run (groupedReservations JSON_stringify (Readable_from [])) fuel)
     = Finished.
Proof.
  intros Hfuel. destruct fuel as [|n]; [lia|]. repeat split.
Qed.

Lemma empty_input_no_output_witness :
  0 < 1
  /\ written (run (groupedReservations (fun _ => EmptyString)
                     (Readable_from [])) 1) = []
  /\ outcome (run (groupedReservations (fun _ => EmptyString)
                     (Readable_from [])) 1) = Finished.
Proof.
  split; [lia|].
  apply (empty_input_no_output reservation_key (fun _ => EmptyString) 1). lia.
Defined.

(** C8.  Three records of keys 1, 2, 1, in this order: [groupBy] emits
    three groups, of the first, the second and the third record; the two
    runs of key 1 are not merged. *)
Theorem groupBy_does_not_merge {T} (k : T -> JsValue) (a b c : T)
    (fuel : nat) :
  k a = JsNumber 1 -> k b = JsNumber 2 -> k c = JsNumber 1 ->
  3 < fuel ->
  written (run (groupBy (Readable_from [a; b; c]) (total k)) fuel)
    = [[a]; [b]; [c]]
  /\ outcome (run (groupBy (Readable_from [a; b; c]) (total k)) fuel)
     = Finished.
Proof.
  intros Ha Hb Hc Hfuel.
  destruct (run_groupBy k [a; b; c] fuel Hfuel) as [Hw Ho].
  split; [|exact Ho]. rewrite Hw. simpl. rewrite Ha, Hb, Hc. reflexivity.
Qed.

Lemma groupBy_does_not_merge_witness :
  let a := object [("key", JsNumber 1); ("name", JsString "first")] in
  let b := object [("key", JsNumber 2); ("name", JsString "second")] in
  let c := object [("key", JsNumber 1); ("name", JsString "third")] in
  written (run (groupBy (Readable_from [a; b; c]) (total key_of)) 4)
    = [[a]; [b]; [c]]
  /\ outcome (run (groupBy (Readable_from [a; b; c]) (total key_of)) 4)
     = Finished.
Proof.
  intros a b c.
  apply (groupBy_does_not_merge key_of a b c 4);
    [reflexivity | reflexivity | reflexivity | lia].
Defined.

(** C10, as stated, fails in its first half: a record whose key is
    [undefined] does close the current group when that group has a key.
    Here the second record has the key [undefined]; when it arrives the
    loop body reaches the [yield] of line 30, and the group of the first
    record is emitted on its own. *)
Lemma undefined_key_closes_group_counterexample :
  let first := object [("key", JsNumber 1)] in
  let second := object [("name", JsString "x")] in
  key_of second = JsUndefined
  /\ loop_body (total key_of) (JsNumber 1) [first] second = Suspend30
  /\ fst (next (groupBy (Readable_from [first; second]) (total key_of))
            (state (groupBy (Readable_from [first; second]) (total key_of))))
     = IterValue [first]
  /\ written (run (groupBy (Readable_from keyed_then_keyless) (total key_of)) 3)
     = [[first]; [second]].
Proof. vm_compute. repeat split. Qed.

(** C10, amended.  [groupBy] uses the key value [undefined] as its "no key
    set yet" sentinel, so a record [u] whose key is [undefined] never fixes
    a group key: whatever the input around it, the record [r] that follows
    [u] is put in the same group as [u], whatever the key of [r].  Such a
    record closes the current group exactly when the current key is not
    [undefined].  In particular, on the input [[u; r]], [groupBy] emits the
    single group [[u; r]]. *)
Theorem undefined_key_is_sentinel {T} (k : T -> JsValue)
    (before : list T) (u r : T) (behind : list T) (fuel : nat) :
  k u = JsUndefined ->
  length (before ++ u :: r :: behind) < fuel ->
  (exists gs1 g1 g2 gs2,
      written (run (groupBy (Readable_from (before ++ u :: r :: behind))
                      (total k)) fuel)
      = gs1 ++ (g1 ++ u :: r :: g2) :: gs2)
  /\ (forall key group,
        loop_body (total k) key group u = Suspend30 <-> key <> JsUndefined)
  /\ (forall key group,
        key = JsUndefined ->
        loop_body (total k) key group u = Continue JsUndefined (group ++ [u]))
  /\ written (run (groupBy (Readable_from [u; r]) (total k)) fuel) = [[u; r]]
  /\ outcome (run (groupBy (Readable_from [u; r]) (total k)) fuel) = Finished.
Proof.
  intros Hu Hfuel. split; [|split; [|split]].
  - destruct (run_groupBy k _ fuel Hfuel) as [Hw _]. rewrite Hw.
    apply emitted_after_undefined. exact Hu.
  - intros key group. rewrite loop_body_total, Hu.
    destruct (strict_eq key JsUndefined) eqn:Eu.
    + apply strict_eq_eq in Eu. split; [discriminate | congruence].
    + split; [|reflexivity]. intros _ ->. discriminate.
  - intros key group ->. rewrite loop_body_total, Hu. reflexivity.
  - rewrite length_app in Hfuel. simpl in Hfuel.
    destruct (run_groupBy k [u; r] fuel) as [Hw Ho]; [simpl; lia|].
    rewrite Hw, Ho. simpl. rewrite Hu. split; reflexivity.
Qed.

Lemma undefined_key_is_sentinel_witness :
  let u := object [("name", JsString "x")] in
  let r := object [("key", JsNumber 1)] in
  written (run (groupBy (Readable_from [u; r]) (total key_of)) 3) = [[u; r]].
Proof.
  intros u r.
  apply (undefined_key_is_sentinel key_of [] u r [] 3); [reflexivity | simpl; lia].
Defined.

(** ** The claims on [map] *)

(** C4.  For every input and every function [f], what [map] delivers is
    [f] of what its input delivers, element by element and in the same
    order, and it ends as its input ends: on an input sequence of length N
    the output has length N, and its i-th element is [f] of the i-th
    element of the input. *)
Theorem map_elementwise {T B} (rows : AsyncGenerator T) (f : T -> B)
    (fuel : nat) :
  outcome (run (map rows (total f)) fuel) = outcome (run rows fuel)
  /\ length (written (run (map rows (total f)) fuel))
     = length (written (run rows fuel))
  /\ forall i : nat,
       written (run (map rows (total f)) fuel) !! i
       = f <$> (written (run rows fuel) !! i).
Proof.
  destruct (run_map rows (total f) fuel) as [Hw Ho].
  rewrite map_until_total in Hw, Ho. cbn [fst snd] in Hw, Ho.
  rewrite Hw, Ho. split; [reflexivity|]. split.
  - apply length_fmap.
  - intros i. apply list_lookup_fmap.
Qed.

(** C6.  If [f] throws on the element at position [i] of the input (and on
    none before it), [map] delivers [f] of the [i] elements before it and
    then fails with what [f] threw: it yields nothing for that element, it
    has pulled [i + 1] elements from its input and pulls no more, since it
    closes its input and is itself closed. *)
Theorem map_fails_fast {T B} (rows : AsyncGenerator T) (f : T -> Completion B)
    (before : list T) (x : T) (ys : list B) (e : JsError) (fuel : nat) :
  written (run rows (S (length before))) = before ++ [x] ->
  Forall2 (fun a b => f a = Normal b) before ys ->
  f x = Abrupt e ->
  length before < fuel ->
  written (run (map rows f) fuel) = ys
  /\ outcome (run (map rows f) fuel) = Failed e
  /\ final (run (map rows f) fuel)
     = (MapClosed, return_ rows (final (run rows (S (length before)))))
  /\ next (map rows f) (final (run (map rows f) fuel))
     = (IterDone, final (run (map rows f) fuel)).
Proof.
  intros Hw Hys Hx Hfuel. unfold run in *.
  change (state (map rows f)) with (MapStart, state rows).
  rewrite (consume_map_throw rows f (length before) MapStart (state rows)
             before x ys e fuel);
    [| discriminate | assumption | reflexivity | assumption | assumption
     | assumption].
  repeat split.
Qed.

Lemma map_fails_fast_witness :
  let rows := groupBy (Readable_from sample_rows) reservation_key in
  written (run (map rows pairs_only) 2) = [2]
  /\ outcome (run (map rows pairs_only) 2)
     = Failed (TypeError "not a pair")
  /\ final (run (map rows pairs_only) 2)
     = (MapClosed, return_ rows (final (run rows 2)))
  /\ next (map rows pairs_only) (final (run (map rows pairs_only) 2))
     = (IterDone, final (run (map rows pairs_only) 2)).
Proof.
  intros rows.
  apply (map_fails_fast rows pairs_only
           [[joined 1 "s1" (JsString "a"); joined 1 "s1" (JsString "b")]]
           [joined 2 "s2" JsNull] [2] (TypeError "not a pair") 2).
  - vm_compute. reflexivity.
  - constructor; [reflexivity | constructor].
  - reflexivity.
  - simpl. lia.
Defined.

(** ** The claims on the pipeline of [main] *)

(** C5, as stated, fails: in the group below the first record has a line
    and the second has none ([null]); the transform projects both records,
    not only the one whose [reservation_line_id] is not [null]. *)
Lemma to_reservation_lines_counterexample :
  let group := [joined 1 "s1" (JsString "a"); joined 1 "s1" JsNull] in
  exists res,
    to_reservation group = Normal res
    /\ line_id <$> lines res = [JsString "a"; JsNull]
    /\ line_id <$> lines_of_non_null group = [JsString "a"]
    /\ lines res <> lines_of_non_null group.
Proof.
  eexists. split; [reflexivity|]. split; [vm_compute; reflexivity|].
  split; [vm_compute; reflexivity|].
  intros E. apply (f_equal length) in E. vm_compute in E. discriminate.
Qed.

(** C5, amended.  For every non-empty group the transform produces one
    reservation whose [id] and [storeId] come from the first record of the
    group and whose lines are the projections of all the records of the
    group when the [reservation_line_id] of the first record is not [null],
    and no line when it is [null].  When the records of the group agree
    with the first on whether that field is [null], the lines are exactly
    the projections of the records whose [reservation_line_id] is not
    [null]. *)
Theorem to_reservation_of_group (group : list Row) :
  group <> [] ->
  exists first res,
    head group = Some first
    /\ to_reservation group = Normal res
    /\ id res = get first "reservation_id"
    /\ storeId res = get first "store_id"
    /\ (get first "reservation_line_id" = JsNull -> lines res = [])
    /\ (get first "reservation_line_id" <> JsNull ->
        lines res = to_line <$> group)
    /\ (agree_with first group = true -> lines res = lines_of_non_null group).
Proof.
  destruct group as [|first rest]; [congruence|]. intros _.
  eexists first, _. split; [reflexivity|]. split; [reflexivity|].
  cbn [id storeId lines]. split; [reflexivity|]. split; [reflexivity|].
  split; [|split].
  - intros E. rewrite E. reflexivity.
  - intros Hne. destruct (strict_neq _ JsNull) eqn:E; [reflexivity|].
    unfold strict_neq in E. apply negb_false_iff, strict_eq_eq in E.
    contradiction.
  - intros Hagree. unfold lines_of_non_null, agree_with in *.
    rewrite (filter_agree _ _ Hagree). fold (has_line first).
    destruct (has_line first); reflexivity.
Qed.

Lemma to_reservation_of_group_witness :
  exists first res,
    head [joined 1 "s1" (JsString "a"); joined 1 "s1" (JsString "b")]
      = Some first
    /\ to_reservation [joined 1 "s1" (JsString "a"); joined 1 "s1" (JsString "b")]
       = Normal res
    /\ id res = get first "reservation_id"
    /\ storeId res = get first "store_id"
    /\ (get first "reservation_line_id" = JsNull -> lines res = [])
    /\ (get first "reservation_line_id" <> JsNull ->
        lines res
        = to_line <$> [joined 1 "s1" (JsString "a"); joined 1 "s1" (JsString "b")])
    /\ (agree_with first
          [joined 1 "s1" (JsString "a"); joined 1 "s1" (JsString "b")] = true ->
        lines res
        = lines_of_non_null
            [joined 1 "s1" (JsString "a"); joined 1 "s1" (JsString "b")]).
Proof.
  apply (to_reservation_of_group
           [joined 1 "s1" (JsString "a"); joined 1 "s1" (JsString "b")]).
  discriminate.
Defined.

(** C9.  Three rows ordered by key, of reservation ids 1, 1, 2 and line
    ids ["a"], ["b"], [null]: the group and transform stages deliver
    exactly two reservations, one of id 1 with the lines a and b, and one
    of id 2 with no line. *)
Theorem two_reservations (a b c : Row) (fuel : nat) :
  get a "reservation_id" = JsNumber 1 ->
  get b "reservation_id" = JsNumber 1 ->
  get c "reservation_id" = JsNumber 2 ->
  get a "reservation_line_id" = JsString "a" ->
  get b "reservation_line_id" = JsString "b" ->
  get c "reservation_line_id" = JsNull ->
  3 < fuel ->
  written (run (reservations (Readable_from [a; b; c])) fuel)
    = [ {| id := JsNumber 1; storeId := get a "store_id";
           lines := [ {| line_id := JsString "a";
                         description := get a "description";
                         quantity := get a "quantity" |};
                      {| line_id := JsString "b";
                         description := get b "description";
                         quantity := get b "quantity" |} ] |};
        {| id := JsNumber 2; storeId := get c "store_id"; lines := [] |} ]
  /\ outcome (run (reservations (Readable_from [a; b; c])) fuel) = Finished.
Proof.
  intros Ha Hb Hc Hla Hlb Hlc Hfuel. unfold reservations, reservation_key.
  destruct (run_map (groupBy (Readable_from [a; b; c]) (total reservation_id_of))
              to_reservation fuel) as [Hw Ho].
  destruct (run_groupBy reservation_id_of [a; b; c] fuel Hfuel) as [Hg Hgo].
  rewrite Hg in Hw, Ho. rewrite Hgo in Ho. rewrite Hw, Ho.
  unfold reservation_id_of. simpl. rewrite Ha, Hb, Hc. simpl.
  unfold to_line. rewrite Ha, Hc, Hla, Hlb, Hlc. simpl. split; reflexivity.
Qed.

Lemma two_reservations_witness :
  written (run (reservations (Readable_from sample_rows)) 4)
    = [ {| id := JsNumber 1; storeId := JsString "s1";
           lines := [ {| line_id := JsString "a";
                         description := JsString "item";
                         quantity := JsNumber 1 |};
                      {| line_id := JsString "b";
                         description := JsString "item";
                         quantity := JsNumber 1 |} ] |};
        {| id := JsNumber 2; storeId := JsString "s2"; lines := [] |} ]
  /\ outcome (run (reservations (Readable_from sample_rows)) 4) = Finished.
Proof.
  apply (two_reservations (joined 1 "s1" (JsString "a"))
           (joined 1 "s1" (JsString "b")) (joined 2 "s2" JsNull) 4);
    try reflexivity. lia.
Defined.


(** ** The loop of [groupBy], for any key function and any stream *)

Lemma prepend_nil {A S} (r : Run A S) : prepend [] r = r.
Proof. destruct r. reflexivity. Qed.

Lemma loop_body_normal {T} (f : T -> Completion JsValue) key group row v :
  f row = Normal v ->
  loop_body f key group row
  = if strict_eq key JsUndefined then Continue v (group ++ [row])
    else if strict_eq key v then Continue key (group ++ [row])
    else Suspend30.
Proof.
  intros E. unfold loop_body, strict_neq. rewrite E.
  destruct (strict_eq key JsUndefined), (strict_eq key v); reflexivity.
Qed.

Lemma loop_body_abrupt {T} (f : T -> Completion JsValue) key group row e :
  f row = Abrupt e -> loop_body f key group row = BodyThrow e.
Proof.
  intros E. unfold loop_body. rewrite E.
  destruct (strict_eq key JsUndefined); reflexivity.
Qed.

(** As long as the key function returns, the consumer sees the groups that
    the loop closes, and then what the loop does on the rest of the
    stream. *)
Lemma groupBy_loop_through {T} (k : T -> JsValue) (f : T -> Completion JsValue)
    (src : Readable T) (rest : list T) (fail : option JsError) :
  forall before key group fuel,
    Forall (fun r => f r = Normal (k r)) before ->
    after (groupBy src f) (length (closed k key group before) + fuel)
      (groupBy_loop f (before ++ rest) fail key group)
    = prepend (closed k key group before)
        (after (groupBy src f) fuel
           (groupBy_loop f rest fail
              (fst (last_state k key group before))
              (snd (last_state k key group before)))).
Proof.
  induction before as [|row before IH]; intros key group fuel Hf.
  - simpl. rewrite prepend_nil. reflexivity.
  - apply Forall_cons in Hf as [Hrow Hf].
    cbn [app groupBy_loop closed last_state].
    rewrite (loop_body_normal f key group row (k row) Hrow).
    destruct (strict_eq key JsUndefined); [apply IH; assumption|].
    destruct (strict_eq key (k row)); [apply IH; assumption|].
    cbn [length Nat.add after]. rewrite consume_S.
    cbn [next groupBy groupBy_next gb_pc gb_rows groupBy_enter destroyed
         pending failure].
    rewrite Hrow. cbn [app]. rewrite (IH (k row) [row] fuel Hf).
    reflexivity.
Qed.

Lemma length_closed {T} (k : T -> JsValue) (rows : list T) :
  forall key group, length (closed k key group rows) <= length rows.
Proof.
  induction rows as [|row rest IH]; intros key group; simpl; [lia|].
  destruct (strict_eq key JsUndefined); [|destruct (strict_eq key (k row))];
    simpl; try (specialize (IH (k row) (group ++ [row])); lia);
    try (specialize (IH key (group ++ [row])); lia).
  specialize (IH (k row) [row]). lia.
Qed.

(** The groups emitted are the groups closed, and then the open group if
    it holds a record. *)
Lemma emitted_closed {T} (k : T -> JsValue) (rows : list T) :
  forall key group,
    emitted k key group rows
    = closed k key group rows
      ++ (if (0 <? length (snd (last_state k key group rows)))%nat
          then [snd (last_state k key group rows)] else []).
Proof.
  induction rows as [|row rest IH]; intros key group; simpl.
  - reflexivity.
  - destruct (strict_eq key JsUndefined); [|destruct (strict_eq key (k row))];
      simpl; rewrite IH; reflexivity.
Qed.

(** Once a row has been read the open group is not empty. *)
Lemma last_state_nonempty {T} (k : T -> JsValue) (rows : list T) :
  forall key group,
    group <> [] \/ rows <> [] -> snd (last_state k key group rows) <> [].
Proof.
  induction rows as [|row rest IH]; intros key group Hne; simpl.
  - destruct Hne; congruence.
  - assert (Hsnoc : group ++ [row] <> []) by (destruct group; discriminate).
    destruct (strict_eq key JsUndefined); [|destruct (strict_eq key (k row))];
      apply IH; left; [assumption | assumption | discriminate].
Qed.

Lemma run_groupBy_through {T} (k : T -> JsValue) (f : T -> Completion JsValue)
    (before rest : list T) (fail : option JsError) (fuel : nat) :
  Forall (fun r => f r = Normal (k r)) before ->
  length before < fuel ->
  let src := {| pending := before ++ rest; failure := fail;
                destroyed := false |} in
  run (groupBy src f) fuel
  = prepend (closed k JsUndefined [] before)
      (after (groupBy src f)
         (fuel - 1 - length (closed k JsUndefined [] before))
         (groupBy_loop f rest fail
            (fst (last_state k JsUndefined [] before))
            (snd (last_state k JsUndefined [] before)))).
Proof.
  intros Hf Hfuel src. destruct fuel as [|n]; [lia|].
  unfold run. rewrite consume_S.
  cbn [next groupBy groupBy_next gb_pc gb_rows state groupBy_enter src
       destroyed pending failure].
  pose proof (length_closed k before JsUndefined []) as Hlen.
  replace n with (length (closed k JsUndefined [] before)
                  + (S n - 1 - length (closed k JsUndefined [] before)))
    at 1 by lia.
  apply groupBy_loop_through. exact Hf.
Qed.

Lemma Forall_total {T} (k : T -> JsValue) (rows : list T) :
  Forall (fun r => total k r = Normal (k r)) rows.
Proof. apply Forall_forall. intros r _. reflexivity. Qed.

Lemma removelast_emitted {T} (k : T -> JsValue) (rows : list T) :
  removelast (emitted k JsUndefined [] rows) = closed k JsUndefined [] rows.
Proof.
  rewrite emitted_closed.
  destruct rows as [|row rest]; [reflexivity|].
  pose proof (last_state_nonempty k (row :: rest) JsUndefined []) as Hne.
  destruct (snd (last_state k JsUndefined [] (row :: rest))) as [|r g].
  - exfalso. apply Hne; [right; discriminate | reflexivity].
  - cbn [length Nat.ltb Nat.leb]. apply removelast_last.
Qed.

(** ** Further properties of [groupBy] *)

(** X1.  When the stream fails with [e] after it has delivered [rows],
    [groupBy] fails with [e] itself, after the groups it had closed: these
    are the groups of the run on a stream that ends after [rows], without
    the last one.  The group that was open when the stream failed is not
    emitted. *)
Theorem groupBy_source_failure {T} (k : T -> JsValue) (rows : list T)
    (e : JsError) (fuel : nat) :
  length rows < fuel ->
  written (run (groupBy (Readable_failing rows e) (total k)) fuel)
    = removelast (written (run (groupBy (Readable_from rows) (total k)) fuel))
  /\ outcome (run (groupBy (Readable_failing rows e) (total k)) fuel)
     = Failed e.
Proof.
  intros Hfuel.
  destruct (run_groupBy k rows fuel Hfuel) as [Hw _]. rewrite Hw.
  rewrite removelast_emitted.
  pose proof (run_groupBy_through k (total k) rows [] (Some e) fuel
                (Forall_total k rows) Hfuel) as Hrun.
  cbv zeta in Hrun. rewrite app_nil_r in Hrun.
  unfold Readable_failing. rewrite Hrun. cbn [groupBy_loop after prepend
    written outcome]. rewrite app_nil_r. split; reflexivity.
Qed.

Lemma groupBy_source_failure_witness :
  length sample_rows < 4
  /\ written (run (groupBy (Readable_failing sample_rows (TypeError "lost"))
                     (total reservation_id_of)) 4)
     = removelast (written (run (groupBy (Readable_from sample_rows)
                                   (total reservation_id_of)) 4))
  /\ outcome (run (groupBy (Readable_failing sample_rows (TypeError "lost"))
                     (total reservation_id_of)) 4)
     = Failed (TypeError "lost").
Proof.
  split; [simpl; lia|].
  apply (groupBy_source_failure reservation_id_of sample_rows
           (TypeError "lost") 4).
  simpl; lia.
Defined.

(** X2.  When the key function throws [e] on a row (and on none before
    it), [groupBy] fails with [e] after the groups it had closed, which are
    the groups of the rows before, without the last one; the open group is
    not emitted.  The generator is then closed and has destroyed the
    stream, from which it has read no row beyond the one the key function
    threw on. *)
Theorem groupBy_key_function_throws {T} (k : T -> JsValue)
    (f : T -> Completion JsValue) (before : list T) (x : T)
    (behind : list T) (e : JsError) (fuel : nat) :
  Forall (fun r => f r = Normal (k r)) before ->
  f x = Abrupt e ->
  length before < fuel ->
  written (run (groupBy (Readable_from (before ++ x :: behind)) f) fuel)
    = removelast (written (run (groupBy (Readable_from before) (total k)) fuel))
  /\ outcome (run (groupBy (Readable_from (before ++ x :: behind)) f) fuel)
     = Failed e
  /\ gb_rows (final (run (groupBy (Readable_from (before ++ x :: behind)) f)
                       fuel))
     = {| pending := behind; failure := None; destroyed := true |}
  /\ next (groupBy (Readable_from (before ++ x :: behind)) f)
       (final (run (groupBy (Readable_from (before ++ x :: behind)) f) fuel))
     = (IterDone,
        final (run (groupBy (Readable_from (before ++ x :: behind)) f) fuel)).
Proof.
  intros Hf Hx Hfuel.
  destruct (run_groupBy k before fuel Hfuel) as [Hw _]. rewrite Hw.
  rewrite removelast_emitted.
  pose proof (run_groupBy_through k f before (x :: behind) None fuel Hf Hfuel)
    as Hrun.
  cbv zeta in Hrun. unfold Readable_from. rewrite Hrun.
  cbn [groupBy_loop]. rewrite (loop_body_abrupt f _ _ x e Hx).
  cbn [after prepend written outcome final gb_rows]. rewrite app_nil_r.
  repeat split.
Qed.

Lemma groupBy_key_function_throws_witness :
  let rows := sample_rows ++ object [("name", JsString "x")] :: sample_rows in
  written (run (groupBy (Readable_from rows) strict_reservation_key) 4)
    = removelast (written (run (groupBy (Readable_from sample_rows)
                                  (total reservation_id_of)) 4))
  /\ outcome (run (groupBy (Readable_from rows) strict_reservation_key) 4)
     = Failed (TypeError "no reservation_id")
  /\ gb_rows (final (run (groupBy (Readable_from rows) strict_reservation_key)
                       4))
     = {| pending := sample_rows; failure := None; destroyed := true |}
  /\ next (groupBy (Readable_from rows) strict_reservation_key)
       (final (run (groupBy (Readable_from rows) strict_reservation_key) 4))
     = (IterDone,
        final (run (groupBy (Readable_from rows) strict_reservation_key) 4)).
Proof.
  intros rows.
  apply (groupBy_key_function_throws reservation_id_of strict_reservation_key
           sample_rows (object [("name", JsString "x")]) sample_rows
           (TypeError "no reservation_id") 4).
  - repeat constructor.
  - reflexivity.
  - simpl; lia.
Defined.

(** ** The groups of [groupBy] on any input *)

Lemma key_of_last_snoc {T} (k : T -> JsValue) (group : list T) (row : T) :
  key_of_last k (k row) (group ++ [row]).
Proof. unfold key_of_last. rewrite last_snoc. reflexivity. Qed.

Lemma key_of_last_defined {T} (k : T -> JsValue) key (group : list T) :
  key_of_last k key group -> strict_eq key JsUndefined = false ->
  exists a, last group = Some a /\ key = k a.
Proof.
  unfold key_of_last. intros Hinv Eu. destruct (last group) as [a|].
  - eauto.
  - subst key. discriminate.
Qed.

Lemma chained_snoc (keys : list JsValue) (b : JsValue) :
  chained (keys ++ [b])
  = chained keys
    && match last keys with Some a => linked a b | None => true end.
Proof.
  induction keys as [|a rest IH]; [reflexivity|].
  destruct rest as [|c rest'].
  - simpl. destruct (linked a b); reflexivity.
  - change (chained ((a :: c :: rest') ++ [b]))
      with (linked a c && chained ((c :: rest') ++ [b])).
    rewrite IH. change (chained (a :: c :: rest'))
      with (linked a c && chained (c :: rest')).
    change (last (a :: c :: rest')) with (last (c :: rest')).
    rewrite andb_assoc. reflexivity.
Qed.

Lemma emitted_nonempty {T} (k : T -> JsValue) (rows : list T) :
  forall key group,
    (group = [] -> key = JsUndefined) ->
    Forall (fun g => g <> []) (emitted k key group rows).
Proof.
  induction rows as [|row rest IH]; intros key group Hinv.
  - simpl. destruct group; simpl; repeat constructor. discriminate.
  - assert (Hsnoc : group ++ [row] = [] -> k row = JsUndefined)
      by (destruct group; discriminate).
    cbn [emitted]. destruct (strict_eq key JsUndefined) eqn:Eu.
    + apply IH. exact Hsnoc.
    + destruct (strict_eq key (k row)).
      * apply IH. destruct group; discriminate.
      * constructor; [|apply IH; discriminate].
        intros ->. rewrite Hinv in Eu by reflexivity. discriminate.
Qed.

Lemma emitted_chained {T} (k : T -> JsValue) (rows : list T) :
  forall key group,
    key_of_last k key group -> chained (k <$> group) = true ->
    Forall (fun g => chained (k <$> g) = true) (emitted k key group rows)
    /\ separated k (emitted k key group rows) = true.
Proof.
  induction rows as [|row rest IH]; intros key group Hinv Hch.
  - simpl. destruct group; simpl; repeat constructor. exact Hch.
  - assert (Hstep : linked key (k row) = true ->
                    chained (k <$> (group ++ [row])) = true).
    { intros Hl. rewrite fmap_app. cbn [fmap list_fmap].
      rewrite chained_snoc, Hch, fmap_last. unfold key_of_last in Hinv.
      destruct (last group) as [a|]; [subst key; exact Hl | reflexivity]. }
    cbn [emitted]. unfold linked in Hstep.
    destruct (strict_eq key JsUndefined) eqn:Eu.
    + apply IH; [apply key_of_last_snoc | apply Hstep; reflexivity].
    + destruct (strict_eq key (k row)) eqn:Ek.
      * apply IH; [|apply Hstep; reflexivity].
        apply strict_eq_eq in Ek. rewrite Ek. apply key_of_last_snoc.
      * destruct (IH (k row) [row]) as [Hall Hsep];
          [apply (key_of_last_snoc k [] row) | reflexivity |].
        split; [constructor; assumption|].
        destruct (emitted_head k rest (k row) [row]) as (g & gs & E);
          [discriminate|].
        rewrite E in Hsep |- *.
        destruct (key_of_last_defined k key group Hinv Eu) as (a & Ha & Hk).
        cbn [separated]. cbn [separated] in Hsep. rewrite Ha.
        cbn [app head]. unfold linked. rewrite <- Hk, Eu, Ek.
        exact Hsep.
Qed.

(** X3.  On every input and for every key function, whatever the keys,
    [groupBy] never emits an empty group. *)
Theorem groupBy_never_emits_empty_group {T} (k : T -> JsValue)
    (rows : list T) (fuel : nat) :
  length rows < fuel ->
  Forall (fun g => g <> [])
    (written (run (groupBy (Readable_from rows) (total k)) fuel)).
Proof.
  intros Hfuel. destruct (run_groupBy k rows fuel Hfuel) as [Hw _].
  rewrite Hw. apply emitted_nonempty. reflexivity.
Qed.

Lemma groupBy_never_emits_empty_group_witness :
  Forall (fun g => g <> [])
    (written (run (groupBy (Readable_from keyless_then_keyed) (total key_of))
                3)).
Proof.
  apply (groupBy_never_emits_empty_group key_of keyless_then_keyed 3).
  simpl; lia.
Defined.

(** X4.  On every input, sorted or not, [groupBy] cuts the input exactly
    where the key changes after a key that is not [undefined]: in a group,
    the key of a record is [undefined] or [===] to the key of the next
    record; and the key of the last record of a group is neither
    [undefined] nor [===] to the key of the first record of the next
    group. *)
Theorem groupBy_cuts_at_key_changes {T} (k : T -> JsValue) (rows : list T)
    (fuel : nat) :
  length rows < fuel ->
  Forall (fun g => chained (k <$> g) = true)
    (written (run (groupBy (Readable_from rows) (total k)) fuel))
  /\ separated k (written (run (groupBy (Readable_from rows) (total k)) fuel))
     = true.
Proof.
  intros Hfuel. destruct (run_groupBy k rows fuel Hfuel) as [Hw _].
  rewrite Hw. apply emitted_chained; reflexivity.
Qed.

Lemma groupBy_cuts_at_key_changes_witness :
  Forall (fun g => chained (reservation_id_of <$> g) = true)
    (written (run (groupBy (Readable_from sample_rows)
                     (total reservation_id_of)) 4))
  /\ separated reservation_id_of
       (written (run (groupBy (Readable_from sample_rows)
                        (total reservation_id_of)) 4))
     = true.
Proof.
  apply (groupBy_cuts_at_key_changes reservation_id_of sample_rows 4).
  simpl; lia.
Defined.

(** X5.  On an input of one record [groupBy] emits the one group of that
    record, whatever its key, [undefined] included. *)
Theorem groupBy_single_record {T} (k : T -> JsValue) (r : T) (fuel : nat) :
  1 < fuel ->
  written (run (groupBy (Readable_from [r]) (total k)) fuel) = [[r]]
  /\ outcome (run (groupBy (Readable_from [r]) (total k)) fuel) = Finished.
Proof.
  intros Hfuel. destruct (run_groupBy k [r] fuel Hfuel) as [Hw Ho].
  rewrite Hw, Ho. split; reflexivity.
Qed.

Lemma groupBy_single_record_witness :
  written (run (groupBy (Readable_from [object [("name", JsString "x")]])
                  (total key_of)) 2)
    = [[object [("name", JsString "x")]]]
  /\ outcome (run (groupBy (Readable_from [object [("name", JsString "x")]])
                    (total key_of)) 2) = Finished.
Proof.
  apply (groupBy_single_record key_of (object [("name", JsString "x")]) 2).
  lia.
Defined.

(** ** What [groupBy] has read *)

Lemma groupBy_loop_unread {T} (k : T -> JsValue) (src : Readable T)
    (rows : list T) :
  forall key group fuel,
    concat (written (after (groupBy src (total k)) fuel
                       (groupBy_loop (total k) rows None key group)))
    ++ unread (final (after (groupBy src (total k)) fuel
                        (groupBy_loop (total k) rows None key group)))
    = group ++ rows.
Proof.
  induction rows as [|row rest IH]; intros key group fuel.
  - cbn [groupBy_loop]. destruct (0 <? length group)%nat eqn:E.
    + destruct fuel; simpl; rewrite !app_nil_r; reflexivity.
    + destruct group; [reflexivity | discriminate].
  - cbn [groupBy_loop]. rewrite loop_body_total.
    destruct (strict_eq key JsUndefined);
      [|destruct (strict_eq key (k row))];
      try (rewrite IH, <- app_assoc; reflexivity).
    destruct fuel as [|n].
    + simpl. rewrite app_nil_r. reflexivity.
    + unfold after. rewrite consume_S.
      cbn [next groupBy groupBy_next gb_pc gb_rows groupBy_enter destroyed
           pending failure].
      change (total k row) with (Normal (k row)). cbv iota.
      specialize (IH (k row) ([] ++ [row]) n).
      cbn [written final concat]. rewrite <- app_assoc, IH. reflexivity.
Qed.

(** X6.  [groupBy] reads one row ahead and no more: at every point of the
    consumption the rows of the groups written so far, then the row the
    generator holds at its [yield], then the rows still in the stream, are
    the input.  A group is thus emitted as soon as the first row of the
    next group has been read, and nothing but the open group and that row
    is kept. *)
Theorem groupBy_reads_one_row_ahead {T} (k : T -> JsValue) (rows : list T)
    (fuel : nat) :
  concat (written (run (groupBy (Readable_from rows) (total k)) fuel))
  ++ unread (final (run (groupBy (Readable_from rows) (total k)) fuel))
  = rows.
Proof.
  destruct fuel as [|n]; [apply app_nil_l|].
  unfold run. rewrite consume_S.
  cbn [next groupBy groupBy_next gb_pc gb_rows state groupBy_enter
       Readable_from destroyed pending failure].
  apply (groupBy_loop_unread k _ rows JsUndefined [] n).
Qed.

(** ** A generator that is done stays done *)

Lemma groupBy_loop_settles {T} (f : T -> Completion JsValue)
    (fail : option JsError) (rows : list T) :
  forall key group,
    match fst (groupBy_loop f rows fail key group) with
    | IterValue _ => True
    | _ => gb_pc (snd (groupBy_loop f rows fail key group)) = GbClosed
    end.
Proof.
  induction rows as [|row rest IH]; intros key group; cbn [groupBy_loop].
  - destruct fail; [reflexivity|].
    destruct (0 <? length group)%nat; simpl; trivial.
  - destruct (loop_body f key group row); simpl; trivial. apply IH.
Qed.

Lemma groupBy_next_settles {T} (f : T -> Completion JsValue)
    (st : GroupByState T) :
  match fst (groupBy_next f st) with
  | IterValue _ => True
  | _ => gb_pc (snd (groupBy_next f st)) = GbClosed
  end.
Proof.
  assert (Henter : forall rows key group,
             match fst (groupBy_enter f rows key group) with
             | IterValue _ => True
             | _ => gb_pc (snd (groupBy_enter f rows key group)) = GbClosed
             end).
  { intros rows key group. unfold groupBy_enter.
    destruct (destroyed rows); [|apply groupBy_loop_settles].
    destruct (0 <? length group)%nat; simpl; trivial. }
  unfold groupBy_next. destruct (gb_pc st) as [|row| |] eqn:Epc.
  - apply Henter.
  - destruct (f row); [apply Henter | reflexivity].
  - reflexivity.
  - simpl. exact Epc.
Qed.

Lemma consume_groupBy_settles {T} (src : Readable T)
    (f : T -> Completion JsValue) (fuel : nat) :
  forall st : GroupByState T,
    outcome (consume (groupBy src f) fuel st) <> Unfinished ->
    gb_pc (final (consume (groupBy src f) fuel st)) = GbClosed.
Proof.
  induction fuel as [|n IH]; intros st Hout; [simpl in Hout; congruence|].
  rewrite consume_S in Hout |- *. cbn [next groupBy] in Hout |- *.
  pose proof (groupBy_next_settles f st) as Hs.
  destruct (groupBy_next f st) as [[g| |e] st']; cbn [fst snd] in Hs;
    cbn [after outcome final] in Hout |- *; try exact Hs.
  apply IH. exact Hout.
Qed.

(** X7.  Once [groupBy] has reported the end or has failed, whatever the
    stream and the key function, it is closed: every later [next()]
    reports the end and changes nothing; the stream is not read again. *)
Theorem groupBy_stays_done {T} (src : Readable T)
    (f : T -> Completion JsValue) (fuel : nat) :
  outcome (run (groupBy src f) fuel) <> Unfinished ->
  next (groupBy src f) (final (run (groupBy src f) fuel))
  = (IterDone, final (run (groupBy src f) fuel)).
Proof.
  intros Hout. unfold run in *.
  pose proof (consume_groupBy_settles src f fuel _ Hout) as Hpc.
  cbn [next groupBy]. unfold groupBy_next.
  change (St (groupBy src f)) with (GroupByState T) in *.
  rewrite Hpc. reflexivity.
Qed.

Lemma groupBy_stays_done_witness :
  next (groupBy (Readable_failing sample_rows (TypeError "lost"))
          strict_reservation_key)
    (final (run (groupBy (Readable_failing sample_rows (TypeError "lost"))
                   strict_reservation_key) 4))
  = (IterDone,
     final (run (groupBy (Readable_failing sample_rows (TypeError "lost"))
                   strict_reservation_key) 4)).
Proof.
  apply (groupBy_stays_done (Readable_failing sample_rows (TypeError "lost"))
           strict_reservation_key 4).
  vm_compute. discriminate.
Defined.

Lemma consume_map_settles {T B} (g : AsyncGenerator T)
    (f : T -> Completion B) (fuel : nat) :
  forall st : MapPc * St g,
    outcome (consume (map g f) fuel st) <> Unfinished ->
    fst (final (consume (map g f) fuel st)) = MapClosed.
Proof.
  induction fuel as [|n IH]; intros [pc s] Hout; [simpl in Hout; congruence|].
  rewrite consume_S in Hout |- *. cbn [next map] in Hout |- *.
  unfold map_next in *. cbn [fst snd] in *.
  destruct pc; try reflexivity;
    (destruct (next g s) as [[row| |e] s']; try reflexivity;
     destruct (f row) as [b|e]; try reflexivity;
     cbn [after outcome final] in Hout |- *; apply IH; exact Hout).
Qed.

(** X8.  Once [map] has reported the end or has failed, whatever its input
    and its function, it is closed: every later [next()] reports the end
    and does not pull from the input. *)
Theorem map_stays_done {T B} (rows : AsyncGenerator T)
    (f : T -> Completion B) (fuel : nat) :
  outcome (run (map rows f) fuel) <> Unfinished ->
  next (map rows f) (final (run (map rows f) fuel))
  = (IterDone, final (run (map rows f) fuel)).
Proof.
  intros Hout. unfold run in *.
  pose proof (consume_map_settles rows f fuel _ Hout) as Hpc.
  cbn [next map]. unfold map_next.
  change (St (map rows f)) with (MapPc * St rows)%type in *.
  rewrite Hpc. reflexivity.
Qed.

Lemma map_stays_done_witness :
  let rows := groupBy (Readable_from sample_rows) reservation_key in
  next (map rows to_reservation) (final (run (map rows to_reservation) 3))
  = (IterDone, final (run (map rows to_reservation) 3)).
Proof.
  intros rows. apply (map_stays_done rows to_reservation 3).
  vm_compute. discriminate.
Defined.

(** ** [map] after [map] *)

Lemma map_until_and_then {A B C} (f1 : A -> Completion B)
    (f2 : B -> Completion C) (o : Outcome) (xs : list A) :
  fst (map_until f2 (fst (map_until f1 xs)))
    = fst (map_until (and_then f1 f2) xs)
  /\ match snd (map_until f2 (fst (map_until f1 xs))) with
     | Some e => Failed e
     | None => match snd (map_until f1 xs) with
               | Some e => Failed e
               | None => o
               end
     end
     = match snd (map_until (and_then f1 f2) xs) with
       | Some e => Failed e
       | None => o
       end.
Proof.
  induction xs as [|x rest [IHw IHo]]; [split; reflexivity|].
  cbn [map_until].
  change (and_then f1 f2 x)
    with (match f1 x with Normal b => f2 b | Abrupt e => Abrupt e end).
  destruct (f1 x) as [b|e]; [|split; reflexivity].
  cbn [map_until fst snd]. destruct (f2 b) as [c|e]; [|split; reflexivity].
  cbn [fst snd]. rewrite IHw. split; [reflexivity | exact IHo].
Qed.

(** X9.  Two [map]s in a row are one [map] with the composed function:
    for every input and all functions [f1] and [f2], throwing or not, the
    consumer gets the same values and the same end or failure from
    [map(map(rows, f1), f2)] as from [map(rows, x => f2(f1(x)))]. *)
Theorem map_map {T B C} (rows : AsyncGenerator T) (f1 : T -> Completion B)
    (f2 : B -> Completion C) (fuel : nat) :
  written (run (map (map rows f1) f2) fuel)
    = written (run (map rows (and_then f1 f2)) fuel)
  /\ outcome (run (map (map rows f1) f2) fuel)
     = outcome (run (map rows (and_then f1 f2)) fuel).
Proof.
  destruct (run_map (map rows f1) f2 fuel) as [Hw2 Ho2].
  destruct (run_map rows f1 fuel) as [Hw1 Ho1].
  destruct (run_map rows (and_then f1 f2) fuel) as [Hw Ho].
  rewrite Hw2, Ho2, Hw1, Ho1, Hw, Ho.
  apply map_until_and_then.
Qed.

(** X10.  For every input and every function [f], throwing or not, [map]
    writes [f] of the elements its input delivers, in order, up to the
    first element on which [f] throws; it fails with that exception, and
    otherwise ends or fails as its input does. *)
Theorem map_writes_until_first_throw {T B} (rows : AsyncGenerator T)
    (f : T -> Completion B) (fuel : nat) :
  written (run (map rows f) fuel)
    = fst (map_until f (written (run rows fuel)))
  /\ outcome (run (map rows f) fuel)
     = match snd (map_until f (written (run rows fuel))) with
       | Some e => Failed e
       | None => outcome (run rows fuel)
       end.
Proof. apply run_map. Qed.

(** ** The pipeline on any rows *)

Lemma run_groupBy_failing {T} (k : T -> JsValue) (rows : list T)
    (e : JsError) (fuel : nat) :
  length rows < fuel ->
  written (run (groupBy (Readable_failing rows e) (total k)) fuel)
    = removelast (emitted k JsUndefined [] rows)
  /\ outcome (run (groupBy (Readable_failing rows e) (total k)) fuel)
     = Failed e.
Proof.
  intros Hfuel. rewrite removelast_emitted.
  pose proof (run_groupBy_through k (total k) rows [] (Some e) fuel
                (Forall_total k rows) Hfuel) as Hrun.
  cbv zeta in Hrun. rewrite app_nil_r in Hrun.
  unfold Readable_failing. rewrite Hrun. cbn [groupBy_loop after prepend
    written outcome]. rewrite app_nil_r. split; reflexivity.
Qed.

Lemma Forall_removelast {A} (P : A -> Prop) (l : list A) :
  Forall P l -> Forall P (removelast l).
Proof.
  induction 1 as [|x l Hx Hl IH]; [constructor|].
  destruct l; [constructor|]. cbn [removelast]. constructor; assumption.
Qed.

Lemma fmap_removelast {A B} (f : A -> B) (l : list A) :
  f <$> removelast l = removelast (f <$> l).
Proof.
  induction l as [|x l IH]; [reflexivity|].
  destruct l as [|y l]; [reflexivity|].
  change (f <$> x :: removelast (y :: l) = f x :: removelast (f <$> y :: l)).
  rewrite fmap_cons, IH. reflexivity.
Qed.

Lemma to_reservation_nonempty (group : list Row) :
  group <> [] -> to_reservation group = Normal (reservation_of group).
Proof. destruct group; [congruence | reflexivity]. Qed.

Lemma map_until_to_reservation (groups : list (list Row)) :
  Forall (fun g => g <> []) groups ->
  map_until to_reservation groups = (reservation_of <$> groups, None).
Proof.
  induction 1 as [|g gs Hg _ IH]; [reflexivity|].
  cbn [map_until]. rewrite (to_reservation_nonempty g Hg), IH. reflexivity.
Qed.

(** The pipeline over a [groupBy] whose groups are not empty. *)
Lemma run_pipeline (JSON_stringify : Reservation -> string)
    (src : Readable Row) (fuel : nat) :
  Forall (fun g => g <> [])
    (written (run (groupBy src reservation_key) fuel)) ->
  written (run (groupedReservations JSON_stringify src) fuel)
    = (fun g => json_line JSON_stringify (reservation_of g))
      <$> written (run (groupBy src reservation_key) fuel)
  /\ outcome (run (groupedReservations JSON_stringify src) fuel)
     = outcome (run (groupBy src reservation_key) fuel).
Proof.
  intros Hne. unfold groupedReservations, reservations.
  destruct (run_map (map (groupBy src reservation_key) to_reservation)
              (total (json_line JSON_stringify)) fuel) as [Hw2 Ho2].
  destruct (run_map (groupBy src reservation_key) to_reservation fuel)
    as [Hw1 Ho1].
  rewrite (map_until_to_reservation _ Hne) in Hw1, Ho1.
  cbn [fst snd] in Hw1, Ho1.
  rewrite map_until_total, Hw1 in Hw2. rewrite map_until_total, Ho1 in Ho2.
  cbn [fst snd] in Hw2, Ho2.
  change (to_json_line JSON_stringify) with (total (json_line JSON_stringify)).
  rewrite Hw2, Ho2, <- list_fmap_compose. split; reflexivity.
Qed.

(** X11.  On every stream that delivers rows and ends, whatever the rows
    hold, the pipeline of [main] does not fail: the transform never sees an
    empty group, so that [groupedRows[0]] is a row, and one line, the JSON
    text of its reservation followed by a line feed, is written for every
    group of [groupBy]. *)
Theorem pipeline_one_line_per_group (JSON_stringify : Reservation -> string)
    (rows : list Row) (fuel : nat) :
  length rows < fuel ->
  outcome (run (groupedReservations JSON_stringify (Readable_from rows)) fuel)
    = Finished
  /\ Forall (fun g => to_reservation g = Normal (reservation_of g))
       (written (run (groupBy (Readable_from rows) reservation_key) fuel))
  /\ written (run (groupedReservations JSON_stringify (Readable_from rows))
                fuel)
     = (fun g => json_line JSON_stringify (reservation_of g))
       <$> written (run (groupBy (Readable_from rows) reservation_key) fuel).
Proof.
  intros Hfuel.
  destruct (run_groupBy reservation_id_of rows fuel Hfuel) as [Hw Ho].
  fold reservation_key in Hw, Ho.
  assert (Hne : Forall (fun g => g <> [])
                  (written (run (groupBy (Readable_from rows) reservation_key)
                              fuel))).
  { rewrite Hw. apply emitted_nonempty. reflexivity. }
  destruct (run_pipeline JSON_stringify (Readable_from rows) fuel Hne)
    as [Hpw Hpo].
  split; [rewrite Hpo; exact Ho|]. split; [|exact Hpw].
  eapply Forall_impl; [exact Hne|]. apply to_reservation_nonempty.
Qed.

Lemma pipeline_one_line_per_group_witness :
  outcome (run (groupedReservations (fun _ => EmptyString)
                  (Readable_from sample_rows)) 4) = Finished.
Proof.
  apply (pipeline_one_line_per_group (fun _ => EmptyString) sample_rows 4).
  simpl; lia.
Defined.

(** X12.  When the stream fails with [e] after it has delivered [rows],
    the generator [groupedReservations] of lines 68-88 rejects with [e]
    itself; the lines it has yielded to its consumer before are the lines
    it yields on a stream that ends after [rows], without the last one: it
    yields no line for the reservation whose rows were being read.  This is
    what the generator hands over, not what the write stream of line 90
    keeps of it. *)
Theorem pipeline_source_failure (JSON_stringify : Reservation -> string)
    (rows : list Row) (e : JsError) (fuel : nat) :
  length rows < fuel ->
  written (run (groupedReservations JSON_stringify (Readable_failing rows e))
             fuel)
    = removelast
        (written (run (groupedReservations JSON_stringify (Readable_from rows))
                    fuel))
  /\ outcome (run (groupedReservations JSON_stringify
                     (Readable_failing rows e)) fuel)
     = Failed e.
Proof.
  intros Hfuel.
  destruct (run_groupBy reservation_id_of rows fuel Hfuel) as [Hw Ho].
  destruct (run_groupBy_failing reservation_id_of rows e fuel Hfuel)
    as [Hfw Hfo].
  fold reservation_key in Hw, Ho, Hfw, Hfo.
  pose proof (emitted_nonempty reservation_id_of rows JsUndefined []
                (fun _ => eq_refl)) as Hne.
  destruct (run_pipeline JSON_stringify (Readable_from rows) fuel) as [Hpw _];
    [rewrite Hw; exact Hne|].
  destruct (run_pipeline JSON_stringify (Readable_failing rows e) fuel)
    as [Hqw Hqo]; [rewrite Hfw; apply Forall_removelast; exact Hne|].
  rewrite Hqw, Hqo, Hpw, Hfw, Hw, Hfo, fmap_removelast. split; reflexivity.
Qed.

Lemma pipeline_source_failure_witness :
  outcome (run (groupedReservations (fun _ => EmptyString)
                  (Readable_failing sample_rows (TypeError "lost"))) 4)
  = Failed (TypeError "lost").
Proof.
  apply (pipeline_source_failure (fun _ => EmptyString) sample_rows
           (TypeError "lost") 4).
  simpl; lia.
Defined.

(** ** Sorted input: one group per key *)

Lemma existsb_cut_keys (P : JsValue -> bool) (keys : list JsValue) :
  forall prev, existsb P keys = false -> existsb P (cut_keys prev keys) = false.
Proof.
  induction keys as [|b rest IH]; intros prev H; [reflexivity|].
  simpl in H. apply orb_false_iff in H as [Hb Hrest].
  cbn [cut_keys]. destruct (linked prev b); [apply IH; exact Hrest|].
  simpl. rewrite Hb. apply IH. exact Hrest.
Qed.

Lemma existsb_cut_keys_drop_run (P : JsValue -> bool) (keys : list JsValue) :
  forall a, existsb P (drop_run a keys) = false ->
    existsb P (cut_keys a keys) = false.
Proof.
  induction keys as [|b rest IH]; intros a H; [reflexivity|].
  cbn [drop_run cut_keys] in *. unfold linked.
  destruct (strict_eq a b) eqn:Eab.
  - apply strict_eq_eq in Eab. subst b. rewrite orb_true_r.
    apply IH. exact H.
  - simpl in H. apply orb_false_iff in H as [Hb Hrest].
    rewrite orb_false_r. destruct (strict_eq a JsUndefined).
    + apply existsb_cut_keys. exact Hrest.
    + simpl. rewrite Hb. apply existsb_cut_keys. exact Hrest.
Qed.

Lemma distinct_cut_keys (keys : list JsValue) :
  forall a, contiguous (a :: keys) = true ->
    distinct_keys (a :: cut_keys a keys) = true.
Proof.
  induction keys as [|b rest IH]; intros a H; [reflexivity|].
  cbn [contiguous] in H. apply andb_true_iff in H as [Ha Hrest].
  apply negb_true_iff in Ha.
  pose proof (IH b Hrest) as Hb.
  cbn [distinct_keys]. rewrite (existsb_cut_keys_drop_run _ _ a Ha).
  cbn [negb andb cut_keys].
  cbn [distinct_keys] in Hb. apply andb_true_iff in Hb as [Hb1 Hb2].
  destruct (linked a b); [exact Hb2|].
  cbn [distinct_keys]. rewrite Hb1, Hb2. reflexivity.
Qed.

Lemma group_key_snoc {T} (k : T -> JsValue) (group : list T) (row : T) :
  group <> [] -> group_key k (group ++ [row]) = group_key k group.
Proof. destruct group; [congruence | reflexivity]. Qed.

Lemma group_keys_emitted {T} (k : T -> JsValue) (rows : list T) :
  forall key group,
    group <> [] ->
    group_key k <$> emitted k key group rows
    = group_key k group :: cut_keys key (k <$> rows).
Proof.
  induction rows as [|row rest IH]; intros key group Hne.
  - simpl. destruct group; [congruence | reflexivity].
  - assert (Hsnoc : group ++ [row] <> []) by (destruct group; discriminate).
    rewrite fmap_cons. cbn [emitted cut_keys]. unfold linked.
    destruct (strict_eq key JsUndefined); cbn [orb].
    + rewrite (IH _ _ Hsnoc), group_key_snoc by assumption. reflexivity.
    + destruct (strict_eq key (k row)) eqn:Ek.
      * apply strict_eq_eq in Ek. rewrite (IH _ _ Hsnoc), group_key_snoc, Ek
          by assumption. reflexivity.
      * rewrite fmap_cons, IH by discriminate. reflexivity.
Qed.

Lemma group_keys_distinct {T} (k : T -> JsValue) (rows : list T) :
  contiguous (k <$> rows) = true ->
  distinct_keys (group_key k <$> emitted k JsUndefined [] rows) = true.
Proof.
  destruct rows as [|row rest]; intros H; [reflexivity|].
  cbn [emitted strict_eq app]. rewrite group_keys_emitted by discriminate.
  apply distinct_cut_keys. exact H.
Qed.

(** X13.  On an input sorted by key (the records that share a key are
    contiguous), no two groups that [groupBy] emits have [===] keys, the
    key of a group being that of its first record: every key gets one
    group at most. *)
Theorem groupBy_sorted_one_group_per_key {T} (k : T -> JsValue)
    (rows : list T) (fuel : nat) :
  contiguous (k <$> rows) = true ->
  length rows < fuel ->
  distinct_keys
    (group_key k
       <$> written (run (groupBy (Readable_from rows) (total k)) fuel))
  = true.
Proof.
  intros Hsorted Hfuel. destruct (run_groupBy k rows fuel Hfuel) as [Hw _].
  rewrite Hw. apply group_keys_distinct. exact Hsorted.
Qed.

Lemma groupBy_sorted_one_group_per_key_witness :
  distinct_keys
    (group_key reservation_id_of
       <$> written (run (groupBy (Readable_from sample_rows)
                           (total reservation_id_of)) 4))
  = true.
Proof.
  apply (groupBy_sorted_one_group_per_key reservation_id_of sample_rows 4).
  - vm_compute; reflexivity.
  - simpl; lia.
Defined.

Lemma id_reservation_of (group : list Row) :
  id (reservation_of group) = group_key reservation_id_of group.
Proof. destruct group; reflexivity. Qed.

(** X14.  On rows ordered by reservation id, the reservations that the
    group and transform stages of [main] deliver have pairwise different
    ids: no reservation is written twice. *)
Theorem pipeline_sorted_distinct_ids (rows : list Row) (fuel : nat) :
  contiguous (reservation_id_of <$> rows) = true ->
  length rows < fuel ->
  distinct_keys (id <$> written (run (reservations (Readable_from rows)) fuel))
  = true
  /\ outcome (run (reservations (Readable_from rows)) fuel) = Finished.
Proof.
  intros Hsorted Hfuel. unfold reservations, reservation_key.
  destruct (run_groupBy reservation_id_of rows fuel Hfuel) as [Hw Ho].
  destruct (run_map (groupBy (Readable_from rows) (total reservation_id_of))
              to_reservation fuel) as [Hmw Hmo].
  rewrite Hw, map_until_to_reservation in Hmw, Hmo
    by (apply emitted_nonempty; reflexivity).
  cbn [fst snd] in Hmw, Hmo. rewrite Hmw, Hmo, Ho.
  split; [|reflexivity].
  rewrite <- list_fmap_compose.
  rewrite (list_fmap_ext _ (group_key reservation_id_of))
    by (intros i g _; apply id_reservation_of).
  apply group_keys_distinct. exact Hsorted.
Qed.

Lemma pipeline_sorted_distinct_ids_witness :
  distinct_keys
    (id <$> written (run (reservations (Readable_from sample_rows)) 4))
  = true
  /\ outcome (run (reservations (Readable_from sample_rows)) 4) = Finished.
Proof.
  apply (pipeline_sorted_distinct_ids sample_rows 4).
  - vm_compute; reflexivity.
  - simpl; lia.
Defined.

(** ** Stopping early *)

(** Where [groupBy] is after a [yield]: inside the loop, or past it with
    the stream at its end. *)
Lemma groupBy_loop_yields {T} (f : T -> Completion JsValue)
    (fail : option JsError) (rows : list T) :
  forall key group g st,
    groupBy_loop f rows fail key group = (IterValue g, st) ->
    destroyed (gb_rows (groupBy_return st)) = true.
Proof.
  induction rows as [|row rest IH]; intros key group g st; cbn [groupBy_loop].
  - destruct fail; [discriminate|].
    destruct (0 <? length group)%nat; [|discriminate].
    intros [= _ <-]. reflexivity.
  - destruct (loop_body f key group row); [apply IH | | discriminate].
    intros [= _ <-]. reflexivity.
Qed.

Lemma groupBy_next_yields {T} (f : T -> Completion JsValue)
    (st : GroupByState T) g st' :
  groupBy_next f st = (IterValue g, st') ->
  destroyed (gb_rows (groupBy_return st')) = true.
Proof.
  assert (Henter : forall rows key group,
             groupBy_enter f rows key group = (IterValue g, st') ->
             destroyed (gb_rows (groupBy_return st')) = true).
  { intros rows key group. unfold groupBy_enter.
    destruct (destroyed rows) eqn:Ed; [|apply groupBy_loop_yields].
    destruct (0 <? length group)%nat; [|discriminate].
    intros [= _ <-]. exact Ed. }
  unfold groupBy_next. destruct (gb_pc st) as [|row| |].
  - apply Henter.
  - destruct (f row); [apply Henter | discriminate].
  - discriminate.
  - discriminate.
Qed.

(** A consumer that has pulled and has not seen the end holds the state
    that the last [next()] left, and that [next()] gave a value. *)
Lemma consume_unfinished {A} (g : AsyncGenerator A) (fuel : nat) :
  forall s, outcome (consume g (S fuel) s) = Unfinished ->
    exists s0 a, next g s0 = (IterValue a, final (consume g (S fuel) s)).
Proof.
  induction fuel as [|n IH]; intros s Hout; rewrite consume_S in Hout |- *;
    destruct (next g s) as [[a| |e] s'] eqn:En; cbn [after outcome final] in *;
    try discriminate.
  - exists s, a. exact En.
  - apply IH. exact Hout.
Qed.

Lemma map_next_yields {T B} (g : AsyncGenerator T) (f : T -> Completion B)
    (st st' : MapPc * St g) (b : B) :
  next (map g f) st = (IterValue b, st') ->
  exists a, fst st' = MapYield43 /\ next g (snd st) = (IterValue a, snd st').
Proof.
  cbn [next map]. unfold map_next. destruct st as [pc s]. cbn [fst snd].
  destruct pc; try discriminate;
    (destruct (next g s) as [[row| |e] s']; try discriminate;
     destruct (f row); try discriminate;
     intros [= _ <-]; exists row; split; reflexivity).
Qed.

(** X15.  Stopping early releases the source.  When the consumer of the
    pipeline of [main] has pulled at least one line, has not seen the end,
    and calls [return()], the call goes down through both [map]s to
    [groupBy], which is suspended at a [yield]; the stream is destroyed
    (or was at its end already) and the pipeline is closed: a later
    [next()] reports the end. *)
Theorem pipeline_return_destroys_stream
    (JSON_stringify : Reservation -> string) (src : Readable Row)
    (fuel : nat) :
  outcome (run (groupedReservations JSON_stringify src) (S fuel)) = Unfinished ->
  let stopped :=
    return_ (groupedReservations JSON_stringify src)
      (final (run (groupedReservations JSON_stringify src) (S fuel))) in
  destroyed (gb_rows (snd (snd stopped))) = true
  /\ next (groupedReservations JSON_stringify src) stopped
     = (IterDone, stopped).
Proof.
  intros Hout stopped. subst stopped. unfold run in *.
  destruct (consume_unfinished _ fuel _ Hout) as (s0 & line & Hnext).
  destruct (final (consume (groupedReservations JSON_stringify src) (S fuel)
                     (state (groupedReservations JSON_stringify src))))
    as [pc2 [pc1 gst]].
  unfold groupedReservations, reservations in Hnext.
  destruct (map_next_yields _ _ _ _ _ Hnext) as (res & Hpc2 & Hnext1).
  destruct (map_next_yields _ _ _ _ _ Hnext1) as (g & Hpc1 & Hnext0).
  cbn [fst snd] in Hpc2, Hpc1, Hnext0. subst pc1 pc2.
  cbn [next groupBy] in Hnext0.
  split; [|reflexivity].
  cbn [return_ groupedReservations reservations map map_return fst snd groupBy].
  exact (groupBy_next_yields _ _ _ _ Hnext0).
Qed.

Lemma pipeline_return_destroys_stream_witness :
  let pipe := groupedReservations (fun _ => EmptyString)
                (Readable_from sample_rows) in
  destroyed (gb_rows (snd (snd (return_ pipe (final (run pipe 1)))))) = true
  /\ next pipe (return_ pipe (final (run pipe 1)))
     = (IterDone, return_ pipe (final (run pipe 1))).
Proof.
  intros pipe.
  apply (pipeline_return_destroys_stream (fun _ => EmptyString)
           (Readable_from sample_rows) 0).
  vm_compute. reflexivity.
Defined.

(** ** The in-memory version *)

Lemma length_groupAndTransform_loop (rows : list Row) :
  forall current grouped,
    length (groupAndTransform_loop rows current grouped)
    = length grouped
      + match current with
        | Some c => S (changes (id c) (reservation_id_of <$> rows))
        | None => runs (reservation_id_of <$> rows)
        end.
Proof.
  induction rows as [|row rest IH]; intros current grouped.
  - destruct current; simpl; rewrite ?length_app; simpl; lia.
  - rewrite fmap_cons. cbn [groupAndTransform_loop runs changes].
    destruct current as [c|]; [|rewrite IH; reflexivity].
    fold (reservation_id_of row). unfold strict_neq.
    destruct (strict_eq (id c) (reservation_id_of row)) eqn:E; cbn [negb].
    + apply strict_eq_eq in E. rewrite IH. cbn [with_line id]. rewrite E.
      reflexivity.
    + rewrite IH, length_app. cbn [with_line open_reservation id length].
      unfold reservation_id_of. lia.
Qed.

Lemma lines_groupAndTransform_loop (rows : list Row) :
  forall current grouped,
    concat (lines <$> groupAndTransform_loop rows current grouped)
    = concat (lines <$> grouped)
      ++ match current with Some c => lines c | None => [] end
      ++ (to_line <$> rows).
Proof.
  induction rows as [|row rest IH]; intros current grouped.
  - destruct current; simpl; rewrite ?fmap_app, ?concat_app; simpl;
      rewrite ?app_nil_r; reflexivity.
  - cbn [groupAndTransform_loop]. rewrite fmap_cons.
    destruct current as [c|]; [|rewrite IH; reflexivity].
    destruct (strict_neq (id c) (get row "reservation_id")); rewrite IH.
    + rewrite fmap_app, concat_app. simpl. rewrite app_nil_r, <- !app_assoc.
      reflexivity.
    + cbn [with_line lines]. rewrite <- !app_assoc. reflexivity.
Qed.

(** X16.  The in-memory version returns one reservation for every maximal
    run of [===]-equal consecutive reservation ids, on every array of rows:
    its "no reservation yet" test is on the reservation, not on the key, so
    that a row without id ([undefined]) opens and closes reservations as
    any other. *)
Theorem groupAndTransform_one_reservation_per_run (rows : list Row) :
  length (groupAndTransformRowsToReservations rows)
  = runs (reservation_id_of <$> rows).
Proof.
  unfold groupAndTransformRowsToReservations.
  rewrite length_groupAndTransform_loop. reflexivity.
Qed.

(** X17.  The in-memory version gives every row one line, [null] line ids
    included: the lines of the reservations it returns, taken in order,
    are the projections of the rows, in order. *)
Theorem groupAndTransform_one_line_per_row (rows : list Row) :
  concat (lines <$> groupAndTransformRowsToReservations rows)
  = to_line <$> rows.
Proof.
  unfold groupAndTransformRowsToReservations.
  rewrite lines_groupAndTransform_loop. reflexivity.
Qed.

Lemma with_line_full_reservation (group : list Row) (row : Row) :
  group <> [] ->
  with_line (full_reservation group) row = full_reservation (group ++ [row]).
Proof.
  intros Hne. unfold with_line, full_reservation. cbn [id storeId lines].
  rewrite !group_key_snoc, fmap_app by assumption. reflexivity.
Qed.

(** On keys that keep clear of the sentinel, the loop of the in-memory
    version and the loop of [groupBy] cut the rows at the same places. *)
Lemma groupAndTransform_loop_emitted (rows : list Row) :
  forall group grouped,
    group <> [] ->
    sentinel_free (group_key reservation_id_of group
                   :: (reservation_id_of <$> rows)) = true ->
    groupAndTransform_loop rows (Some (full_reservation group)) grouped
    = grouped
      ++ (full_reservation
            <$> emitted reservation_id_of
                  (group_key reservation_id_of group) group rows).
Proof.
  induction rows as [|row rest IH]; intros group grouped Hne Hfree.
  - simpl. destruct group; [congruence | reflexivity].
  - rewrite fmap_cons in Hfree.
    apply sentinel_free_cons in Hfree as [Hu Hfree].
    assert (Hsnoc : group ++ [row] <> []) by (destruct group; discriminate).
    cbn [groupAndTransform_loop emitted]. fold (reservation_id_of row).
    change (id (full_reservation group))
      with (group_key reservation_id_of group).
    unfold strict_neq.
    destruct (strict_eq (group_key reservation_id_of group) JsUndefined)
      eqn:Eu.
    + pose proof (Hu eq_refl) as Hrow.
      assert (Hgk : group_key reservation_id_of (group ++ [row]) = JsUndefined).
      { rewrite group_key_snoc by assumption. apply strict_eq_eq. exact Eu. }
      rewrite Hrow in Hfree |- *. rewrite Eu. cbn [negb].
      rewrite with_line_full_reservation by assumption.
      rewrite (IH (group ++ [row]) grouped Hsnoc); rewrite Hgk;
        [reflexivity | exact Hfree].
    + destruct (strict_eq (group_key reservation_id_of group)
                  (reservation_id_of row)) eqn:Ek; cbn [negb].
      * rewrite with_line_full_reservation by assumption.
        apply strict_eq_eq in Ek.
        rewrite (IH (group ++ [row]) grouped Hsnoc);
          rewrite group_key_snoc by assumption;
          [reflexivity | rewrite Ek; exact Hfree].
      * change (with_line (open_reservation row) row)
          with (full_reservation [row]).
        rewrite (IH [row]); [|discriminate | exact Hfree].
        rewrite fmap_cons, <- app_assoc. reflexivity.
Qed.

Lemma groupAndTransform_emitted (rows : list Row) :
  sentinel_free (reservation_id_of <$> rows) = true ->
  groupAndTransformRowsToReservations rows
  = full_reservation <$> emitted reservation_id_of JsUndefined [] rows.
Proof.
  destruct rows as [|row rest]; intros Hfree; [reflexivity|].
  unfold groupAndTransformRowsToReservations.
  cbn [groupAndTransform_loop emitted strict_eq app].
  change (with_line (open_reservation row) row) with (full_reservation [row]).
  rewrite (groupAndTransform_loop_emitted rest [row] []);
    [reflexivity | discriminate | exact Hfree].
Qed.

Lemma reservation_of_full (group : list Row) :
  group <> [] ->
  reservation_of group = without_null_lines (full_reservation group).
Proof. destruct group as [|first rest]; [congruence | reflexivity]. Qed.

Lemma without_null_lines_full (group : list Row) :
  Forall (fun r => has_line r = true) group ->
  without_null_lines (full_reservation group) = full_reservation group.
Proof.
  destruct 1 as [|first rest Hfirst _]; [reflexivity|].
  unfold without_null_lines, full_reservation. cbn [id storeId lines].
  rewrite fmap_cons. cbn [to_line line_id]. unfold has_line in Hfirst.
  rewrite Hfirst. reflexivity.
Qed.

Lemma Forall_of_concat {A} (P : A -> Prop) (gs : list (list A)) :
  Forall P (concat gs) -> Forall (Forall P) gs.
Proof.
  induction gs as [|g gs IH]; intros H; [constructor|].
  simpl in H. apply Forall_app in H as [Hg Hgs].
  constructor; [exact Hg | apply IH; exact Hgs].
Qed.

(** X18.  The pipeline of index.ts against the in-memory version it was
    factored out of.  On rows in which no reservation id [undefined] is
    directly followed by one that is not, the group and transform stages
    deliver the reservations of the in-memory version, in the same order,
    save that a reservation whose first line has the id [null] has no
    line at all.  When every row has a line, they deliver exactly the
    reservations of the in-memory version. *)
Theorem pipeline_refines_in_memory_version (rows : list Row) (fuel : nat) :
  sentinel_free (reservation_id_of <$> rows) = true ->
  length rows < fuel ->
  outcome (run (reservations (Readable_from rows)) fuel) = Finished
  /\ written (run (reservations (Readable_from rows)) fuel)
     = without_null_lines <$> groupAndTransformRowsToReservations rows
  /\ (forallb has_line rows = true ->
      written (run (reservations (Readable_from rows)) fuel)
      = groupAndTransformRowsToReservations rows).
Proof.
  intros Hfree Hfuel. unfold reservations, reservation_key.
  destruct (run_groupBy reservation_id_of rows fuel Hfuel) as [Hw Ho].
  destruct (run_map (groupBy (Readable_from rows) (total reservation_id_of))
              to_reservation fuel) as [Hmw Hmo].
  pose proof (emitted_nonempty reservation_id_of rows JsUndefined []
                (fun _ => eq_refl)) as Hne.
  rewrite Hw, (map_until_to_reservation _ Hne) in Hmw, Hmo.
  cbn [fst snd] in Hmw, Hmo. rewrite Hmw, Hmo, Ho.
  rewrite (groupAndTransform_emitted rows Hfree).
  assert (Hpipe : reservation_of <$> emitted reservation_id_of JsUndefined [] rows
                  = without_null_lines
                    <$> (full_reservation
                           <$> emitted reservation_id_of JsUndefined [] rows)).
  { rewrite <- list_fmap_compose. apply list_fmap_ext. intros i g Hg.
    apply reservation_of_full.
    rewrite Forall_forall in Hne. apply Hne.
    apply list_elem_of_lookup. eauto. }
  split; [reflexivity|]. split; [exact Hpipe|].
  intros Hlines. rewrite Hpipe, <- list_fmap_compose.
  apply list_fmap_ext. intros i g Hg. apply without_null_lines_full.
  assert (Hall : Forall (Forall (fun r => has_line r = true))
                   (emitted reservation_id_of JsUndefined [] rows)).
  { apply Forall_of_concat. rewrite concat_emitted. simpl.
    apply Forall_forall. intros r Hr.
    rewrite forallb_forall in Hlines. apply Hlines.
    apply list_elem_of_In. exact Hr. }
  rewrite Forall_forall in Hall. apply Hall.
  apply list_elem_of_lookup. eauto.
Qed.

Lemma pipeline_refines_in_memory_version_witness :
  let rows := [joined 1 "s1" (JsString "a"); joined 1 "s1" (JsString "b");
               joined 2 "s2" (JsString "c")] in
  written (run (reservations (Readable_from rows)) 4)
  = groupAndTransformRowsToReservations rows.
Proof.
  intros rows.
  apply (pipeline_refines_in_memory_version rows 4).
  - vm_compute; reflexivity.
  - simpl; lia.
  - vm_compute; reflexivity.
Defined.
